(** * ashuffle: the queue maintainer of [src/ashuffle.cc]

    A shallow embedding of [TryFirst], [TryEnqueue], [Reloader] and [Loop]
    together with the collaborators they talk to: the [mpd::MPD] connection
    and [mpd::Status] of [src/mpd.h], the shuffle chain, the catalog loader
    and the test delegate.

    The player is modelled as a script: every call the code makes on it is
    appended to a trace, and what [CurrentStatus] and [Idle] answer is read
    from feeds that the theorems quantify over.  The shuffle chain is an
    interface ([ShuffleChainOps]), as its implementation is not part of the
    files at hand. *)

From Stdlib Require Import ZArith List String Ascii Bool Lia Arith.
Import ListNotations.
Local Open Scope string_scope.
Local Open Scope list_scope.
Local Open Scope Z_scope.

Set Implicit Arguments.

(** ** Machine integers *)

(** [unsigned] and [int] are 32 bits wide.  Conversions between them are
    modular; signed arithmetic that leaves the range is taken to wrap in
    two's complement, which is what the conversions of lines 81-82 and the
    subtraction of line 61 do on the supported targets. *)
Module Int32.

Definition modulus : Z := 2 ^ 32.
Definition INT_MAX : Z := 2 ^ 31 - 1.
Definition INT_MIN : Z := - 2 ^ 31.
Definition UINT_MAX : Z := 2 ^ 32 - 1.

(** [static_cast<unsigned>] *)
Definition to_unsigned (z : Z) : Z := z mod modulus.

(** [static_cast<int>] *)
Definition to_int (z : Z) : Z :=
  let u := z mod modulus in
  if u <? 2 ^ 31 then u else u - modulus.

Definition is_unsigned (z : Z) : Prop := 0 <= z <= UINT_MAX.
Definition is_int (z : Z) : Prop := INT_MIN <= z <= INT_MAX.

End Int32.

(** ** [mpd.h]: status, idle events *)

(** [class Status]: the four observers, as the values they return. *)
Record Status : Type := {
  QueueLength : Z;              (* unsigned *)
  Single : bool;
  SongPosition : option Z;      (* std::optional<int> *)
  IsPlaying : bool
}.

(** [enum mpd_idle] of libmpdclient's [<mpd/idle.h>]; [MPD_IDLE_QUEUE] is
    the value of [MPD_IDLE_PLAYLIST], which line 155 asserts. *)
Definition MPD_IDLE_DATABASE : Z := 1.
Definition MPD_IDLE_STORED_PLAYLIST : Z := 2.
Definition MPD_IDLE_QUEUE : Z := 4.
Definition MPD_IDLE_PLAYLIST : Z := MPD_IDLE_QUEUE.
Definition MPD_IDLE_PLAYER : Z := 8.

(** [struct IdleEventSet]: a bit set held in an [int]. *)
Module IdleEventSet.

Record t : Type := { events : Z }.

Definition empty : t := {| events := 0 |}.

(** [void Add(enum mpd_idle event) { events |= event; }] *)
Definition Add (s : t) (event : Z) : t :=
  {| events := Z.lor (events s) event |}.

(** The variadic constructor: [Add] for each listed event. *)
Definition make (set_events : list Z) : t := fold_left Add set_events empty.

(** [bool Has(enum mpd_idle event) const { return !!(events & event); }] *)
Definition Has (s : t) (event : Z) : bool :=
  negb (Z.land (events s) event =? 0).

End IdleEventSet.

(** ** Options ([args.h], the fields the loop reads) *)

Inductive istream : Type :=
| Stdin
| FileStream (path : string).

Record Tweak : Type := {
  window_size : Z;
  play_on_startup : bool;
  suspend_timeout : Z;          (* absl::Duration, in nanoseconds *)
  exit_on_db_update : bool
}.

Record Options : Type := {
  ruleset : list string;        (* opaque to the loop *)
  group_by : list Z;            (* enum mpd_tag_type, opaque to the loop *)
  file_in : option istream;     (* std::istream *, None is nullptr *)
  queue_buffer : Z;             (* unsigned *)
  tweak : Tweak
}.

(** [struct TestDelegate]: [until_f] is asked before every iteration,
    [None] is the null function of production runs.  [sleep_f] is recorded
    in the trace. *)
Record TestDelegate : Type := {
  until_f : option (nat -> bool)
}.

(** ** The shuffle chain, as an interface *)

(** What [Loop] and its helpers need of [ShuffleChain].  [Pick] is a
    method of a stateful object (the chain owns its exclusion window and
    its random source), so it returns the chain it leaves behind; [None] is
    the [EmptyChain] failure. *)
Class ShuffleChainOps (C : Type) : Type := {
  chain_Clear : C -> C;
  chain_Add : list string -> C -> C;
  chain_Pick : C -> option (list string * C);
  chain_Len : C -> nat;
  chain_LenURIs : C -> nat
}.

(** The chain's contract as far as the pool size goes: [Len] and [LenURIs]
    reflect registration, not exclusion state. *)
Class ShuffleChainLaws (C : Type) `{ShuffleChainOps C} : Prop := {
  Len_Pick : forall c g c', chain_Pick c = Some (g, c') ->
                            chain_Len c' = chain_Len c;
  LenURIs_Pick : forall c g c', chain_Pick c = Some (g, c') ->
                                chain_LenURIs c' = chain_LenURIs c;
  Len_Clear : forall c, chain_Len (chain_Clear c) = 0%nat;
  LenURIs_Clear : forall c, chain_LenURIs (chain_Clear c) = 0%nat
}.

Arguments ShuffleChainLaws C {_}.

(** ** Calls, outcomes and the world *)

(** [PrintChainLength] writes one of three lines. *)
Inductive Message : Type :=
| DatabaseUpdatedExiting                  (* "Database updated, exiting." *)
| SongPoolIsEmpty                         (* "Song pool is empty." *)
| PickingFromGroups (groups songs : nat)  (* "Picking from %u groups (%u songs)." *)
| PickingFromPool (songs : nat).          (* "Picking random songs out of a pool of N." *)

(** Every interaction of the code with a collaborator. *)
Inductive Call : Type :=
| CallCurrentStatus
| CallAdd (uri : string)
| CallPlayAt (position : Z)
| CallPause
| CallIdle (set : IdleEventSet.t)
| CallPick
| CallClear
| CallLoad
| CallSleep (duration : Z)
| CallPrint (msg : Message).

Inductive Error : Type :=
| EmptyChain
| LoadFailure.

(** How a computation ends: it returns, the process exits ([std::exit]),
    a fatal error surfaces, or the model's fuel is used up. *)
Inductive Outcome (A : Type) : Type :=
| Returned (a : A)
| Exited (code : Z)
| Failed (e : Error)
| OutOfFuel.

Arguments Exited {A} code.
Arguments Failed {A} e.
Arguments OutOfFuel {A}.

Definition Feed (A : Type) : Type := nat -> A.
Definition feed_next {A : Type} (f : Feed A) : Feed A := fun n => f (S n).

Section Maintainer.

Context {C : Type} `{ShuffleChainOps C}.

#[projections(primitive)]
Record World : Type := {
  status_feed : Feed Status;                (* answers of CurrentStatus *)
  idle_feed : Feed IdleEventSet.t;          (* answers of Idle *)
  catalog_feed : Feed (option (list (list string)));
                                            (* what each Load finds *)
  songs : C;
  trace : list Call
}.

(** The world after the calls [cs] were made, in this order. *)
Definition extend (cs : list Call) (w : World) : World :=
  {| status_feed := status_feed w; idle_feed := idle_feed w;
     catalog_feed := catalog_feed w; songs := songs w;
     trace := trace w ++ cs |}.

Definition record (c : Call) (w : World) : World := extend [c] w.

Definition with_songs (c : C) (w : World) : World :=
  {| status_feed := status_feed w; idle_feed := idle_feed w;
     catalog_feed := catalog_feed w; songs := c; trace := trace w |}.

Definition next_status (w : World) : World :=
  {| status_feed := feed_next (status_feed w); idle_feed := idle_feed w;
     catalog_feed := catalog_feed w; songs := songs w; trace := trace w |}.

Definition next_idle (w : World) : World :=
  {| status_feed := status_feed w; idle_feed := feed_next (idle_feed w);
     catalog_feed := catalog_feed w; songs := songs w; trace := trace w |}.

Definition next_catalog (w : World) : World :=
  {| status_feed := status_feed w; idle_feed := idle_feed w;
     catalog_feed := feed_next (catalog_feed w); songs := songs w;
     trace := trace w |}.

(** *** The monad: state, early exit, failure *)

Definition M (A : Type) : Type := World -> Outcome A * World.

Definition ret {A : Type} (a : A) : M A := fun w => (Returned a, w).

Definition bind {A B : Type} (m : M A) (k : A -> M B) : M B :=
  fun w =>
    match m w with
    | (Returned a, w') => k a w'
    | (Exited code, w') => (Exited code, w')
    | (Failed e, w') => (Failed e, w')
    | (OutOfFuel, w') => (OutOfFuel, w')
    end.

Notation "x <- m ;; k" := (bind m (fun x => k))
  (at level 61, m at next level, right associativity).
Notation "m ;; k" := (bind m (fun _ => k))
  (at level 61, right associativity).

Definition emit (c : Call) : M unit := fun w => (Returned tt, record c w).

(** *** The collaborators' operations *)

Definition CurrentStatus : M Status :=
  fun w => (Returned (status_feed w 0%nat),
            record CallCurrentStatus (next_status w)).

Definition Add (uri : string) : M unit := emit (CallAdd uri).

(** [void Add(const std::vector<std::string>& uris)], [mpd.h] line 144. *)
Fixpoint AddAll (uris : list string) : M unit :=
  match uris with
  | [] => ret tt
  | u :: rest => Add u ;; AddAll rest
  end.

Definition PlayAt (position : Z) : M unit := emit (CallPlayAt position).

Definition Pause : M unit := emit CallPause.

Definition Idle (set : IdleEventSet.t) : M IdleEventSet.t :=
  fun w => (Returned (idle_feed w 0%nat),
            record (CallIdle set) (next_idle w)).

Definition Pick : M (list string) :=
  fun w =>
    match chain_Pick (songs w) with
    | Some (picked, c') => (Returned picked, record CallPick (with_songs c' w))
    | None => (Failed EmptyChain, record CallPick w)
    end.

Definition Clear : M unit :=
  fun w => (Returned tt, record CallClear (with_songs (chain_Clear (songs w)) w)).

Definition sleep_f (duration : Z) : M unit := emit (CallSleep duration).

Definition exit {A : Type} (code : Z) : M A := fun w => (Exited code, w).

(** *** [TryFirst], lines 37-48 *)

Definition TryFirst : M unit :=
  status <- CurrentStatus ;;
  if IsPlaying status then ret tt
  else
    picked <- Pick ;;
    AddAll picked ;;
    PlayAt (QueueLength status).

(** *** [TryEnqueue], lines 50-111 *)

Definition past_last (status : Status) : bool :=
  match SongPosition status with
  | Some _ => false
  | None => true
  end.

Definition queue_empty (status : Status) : bool := QueueLength status =? 0.

(** Lines 57-62: [unsigned - (int + 1)], the difference taken as
    [unsigned]. *)
Definition queue_songs_remaining (status : Status) : Z :=
  match SongPosition status with
  | None => 0
  | Some pos =>
      Int32.to_unsigned (QueueLength status - Int32.to_int (pos + 1))
  end.

(** Lines 64-76. *)
Definition should_add (status : Status) (options : Options) : bool :=
  if past_last status then true
  else if queue_songs_remaining status <? queue_buffer options then true
  else if queue_empty status then true
  else false.

(** Lines 81-88: [needed] before the loop. *)
Definition needed_init (status : Status) (options : Options) : Z :=
  let needed :=
    Int32.to_int (Int32.to_int (queue_buffer options) -
                  Int32.to_int (queue_songs_remaining status)) in
  if past_last status || queue_empty status
  then Int32.to_int (needed + 1)
  else needed.

(** Lines 89-93: [while (needed > 0)]. *)
Fixpoint enqueue_loop (fuel : nat) (needed : Z) : M unit :=
  if needed >? 0 then
    match fuel with
    | O => fun w => (OutOfFuel, w)
    | S fuel' =>
        picked <- Pick ;;
        let needed' :=
          Int32.to_int (needed - Int32.to_int (Z.of_nat (List.length picked))) in
        AddAll picked ;;
        enqueue_loop fuel' needed'
    end
  else ret tt.

(** Lines 79-97. *)
Definition enqueue_phase (fuel : nat) (status : Status) (options : Options)
  : M unit :=
  if should_add status options then
    if negb (queue_buffer options =? 0) then
      enqueue_loop fuel (needed_init status options)
    else
      picked <- Pick ;; AddAll picked
  else ret tt.

(** Lines 99-110. *)
Definition restart_phase (status : Status) (options : Options) : M unit :=
  if should_add status options && (past_last status || queue_empty status)
  then
    PlayAt (QueueLength status) ;;
    if Single status then Pause else ret tt
  else ret tt.

Definition TryEnqueue (fuel : nat) (options : Options) : M unit :=
  status <- CurrentStatus ;;
  enqueue_phase fuel status options ;;
  restart_phase status options.

(** *** [Reloader], lines 140-148 *)

Inductive Loader : Type :=
| MPDLoader (ruleset : list string) (group_by : list Z).

Definition Reloader (options : Options) : option Loader :=
  match file_in options with
  | Some _ => None
  | None => Some (MPDLoader (ruleset options) (group_by options))
  end.

(** Modelled from the spec: [Loader::Load] of [load.h], which is not among
    the sources: it "fills the given Shuffle Chain; errors propagate as
    fatal".  The groups the loader finds in the player's database are read
    from [catalog_feed]; [None] there is a load failure. *)
Definition Load (reloader : Loader) : M unit :=
  fun w =>
    match catalog_feed w 0%nat with
    | Some groups =>
        (Returned tt,
         record CallLoad
           (with_songs (fold_left (fun c g => chain_Add g c) groups (songs w))
                       (next_catalog w)))
    | None => (Failed LoadFailure, record CallLoad (next_catalog w))
    end.

(** *** [PrintChainLength], lines 274-289 *)

Definition PrintChainLength : M unit :=
  fun w =>
    let len := chain_Len (songs w) in
    let len_uris := chain_LenURIs (songs w) in
    if (len =? 0)%nat then emit (CallPrint SongPoolIsEmpty) w
    else if negb (len =? len_uris)%nat
         then emit (CallPrint (PickingFromGroups len len_uris)) w
         else emit (CallPrint (PickingFromPool len)) w.

(** *** [Loop], lines 153-204 *)

(** Line 157. *)
Definition idle_set : IdleEventSet.t :=
  IdleEventSet.make [MPD_IDLE_DATABASE; MPD_IDLE_QUEUE; MPD_IDLE_PLAYER].

(** Lines 190-197: the suspend check, which yields the new [active]. *)
Definition suspend_check (options : Options) (active : bool) : M bool :=
  if negb (suspend_timeout (tweak options) =? 0) then
    status <- CurrentStatus ;;
    if QueueLength status =? 0 then
      sleep_f (suspend_timeout (tweak options)) ;;
      status <- CurrentStatus ;;
      ret (QueueLength status =? 0)
    else ret active
  else ret active.

(** Lines 172-202: one pass of the [while] body; the result is [active]
    as the pass leaves it. *)
Definition Loop_iteration (options : Options) (fuel : nat) (active : bool)
  : M bool :=
  events <- Idle idle_set ;;
  (if IdleEventSet.Has events MPD_IDLE_DATABASE
      && exit_on_db_update (tweak options)
   then emit (CallPrint DatabaseUpdatedExiting) ;; exit 0
   else ret tt) ;;
  if IdleEventSet.Has events MPD_IDLE_DATABASE
     && match file_in options with None => true | Some _ => false end
  then
    match Reloader options with
    | Some reloader =>
        Clear ;; Load reloader ;; PrintChainLength ;; ret active
    | None => ret active
    end
  else if IdleEventSet.Has events MPD_IDLE_QUEUE
          || IdleEventSet.Has events MPD_IDLE_PLAYER
  then
    active <- suspend_check options active ;;
    if negb active then ret active        (* continue *)
    else TryEnqueue fuel options ;; ret active
  else ret active.

(** Line 170: [test_d.until_f == nullptr || test_d.until_f()], at the
    [i]-th evaluation. *)
Definition keep_going (test_d : TestDelegate) (i : nat) : bool :=
  match until_f test_d with
  | None => true
  | Some f => f i
  end.

(** Lines 170-203; [rounds] bounds the iterations the model follows. *)
Fixpoint Loop_while (rounds : nat) (options : Options) (test_d : TestDelegate)
         (fuel : nat) (i : nat) (active : bool) : M unit :=
  if keep_going test_d i then
    match rounds with
    | O => fun w => (OutOfFuel, w)
    | S rounds' =>
        active' <- Loop_iteration options fuel active ;;
        Loop_while rounds' options test_d fuel (S i) active'
    end
  else ret tt.

Definition Loop (options : Options) (test_d : TestDelegate)
           (fuel rounds : nat) : M unit :=
  (if play_on_startup (tweak options)
   then TryFirst ;; TryEnqueue fuel options
   else ret tt) ;;
  Loop_while rounds options test_d fuel 0%nat true.

(** *** Vocabulary of the statements *)

(** The calls one picked group causes: the [Pick], then an [Add] for each
    identifier, in order. *)
Definition group_calls (picked : list string) : list Call :=
  CallPick :: map CallAdd picked.

Definition groups_calls (groups : list (list string)) : list Call :=
  flat_map group_calls groups.

(** Number of identifiers in a list of groups. *)
Definition total_uris (groups : list (list string)) : Z :=
  fold_right (fun g acc => Z.of_nat (List.length g) + acc) 0 groups.

(** The result of the [n]-th next [Pick] on a chain (counting from 0). *)
Fixpoint nth_pick (n : nat) (c : C) : option (list string) :=
  match chain_Pick c with
  | None => None
  | Some (g, c') =>
      match n with
      | O => Some g
      | S n' => nth_pick n' c'
      end
  end.

(** The first [n] results of [Pick] and the chain they leave. *)
Fixpoint pick_many (n : nat) (c : C) : option (list (list string) * C) :=
  match n with
  | O => Some ([], c)
  | S n' =>
      match chain_Pick c with
      | None => None
      | Some (g, c') =>
          match pick_many n' c' with
          | None => None
          | Some (gs, c'') => Some (g :: gs, c'')
          end
      end
  end.

(** Every coming [Pick] succeeds with a group of at least one identifier
    whose size an [int] holds. *)
Definition picks_well (c : C) : Prop :=
  forall n, exists g, nth_pick n c = Some g /\
                      1 <= Z.of_nat (List.length g) <= Int32.INT_MAX.


(** The calls that start playback at the end of [TryEnqueue]. *)
Definition restart_calls (status : Status) : list Call :=
  CallPlayAt (QueueLength status) ::
  (if Single status then [CallPause] else []).

(** The calls of lines 101-110. *)
Definition restart_delta (status : Status) (options : Options) : list Call :=
  if should_add status options && (past_last status || queue_empty status)
  then restart_calls status else [].

(** Lines 190-201: what the body does with a queue or player event. *)
Definition queue_player_handling (options : Options) (fuel : nat)
           (active : bool) : M bool :=
  bind (suspend_check options active)
       (fun active' =>
          if negb active' then ret active'
          else bind (TryEnqueue fuel options) (fun _ => ret active')).

(** The line [PrintChainLength] writes for a chain. *)
Definition pool_message (c : C) : Message :=
  if (chain_Len c =? 0)%nat then SongPoolIsEmpty
  else if negb (chain_Len c =? chain_LenURIs c)%nat
       then PickingFromGroups (chain_Len c) (chain_LenURIs c)
       else PickingFromPool (chain_Len c).

(** The calls that only the handling of a queue or player event makes:
    the suspend check's and the enqueue decision's. *)
Definition queue_player_call (c : Call) : bool :=
  match c with
  | CallCurrentStatus | CallSleep _ | CallPick | CallAdd _
  | CallPlayAt _ | CallPause => true
  | CallIdle _ | CallClear | CallLoad | CallPrint _ => false
  end.

(** The chain that a reload leaves: cleared, then filled with the groups
    the loader found. *)
Definition reloaded (groups : list (list string)) (c : C) : C :=
  fold_left (fun c g => chain_Add g c) groups (chain_Clear c).

(** From [w] to [w'] calls were made, none of them a [Clear] or a [Load],
    and the pool has the size it had. *)
Definition pool_kept (w w' : World) : Prop :=
  exists delta,
    trace w' = trace w ++ delta /\
    ~ In CallClear delta /\ ~ In CallLoad delta /\
    chain_Len (songs w') = chain_Len (songs w) /\
    chain_LenURIs (songs w') = chain_LenURIs (songs w).

Definition no_reload {A : Type} (m : M A) : Prop :=
  forall w, pool_kept w (snd (m w)).

End Maintainer.

Arguments World C : clear implicits.

Notation "x <- m ;; k" := (bind m (fun x => k))
  (at level 61, m at next level, right associativity).
Notation "m ;; k" := (bind m (fun _ => k))
  (at level 61, right associativity).

(** The number of queued songs strictly after position [pos] in a queue of
    [len] songs, by counting the positions [0 .. len-1]. *)
Definition songs_after (pos len : Z) : Z :=
  Z.of_nat (List.length
              (filter (fun i => pos <? Z.of_nat i) (seq 0 (Z.to_nat len)))).

(** [remaining] in the words of the enqueue decision: the songs after the
    current one, 0 when there is no current song. *)
Definition remaining (status : Status) : Z :=
  match SongPosition status with
  | None => 0
  | Some pos => songs_after pos (QueueLength status)
  end.

(** A status as [mpd.h] documents it: an unsigned queue length, and a song
    position that, when there is one, is a position of the queue. *)
Definition status_ok (status : Status) : Prop :=
  Int32.is_unsigned (QueueLength status) /\
  forall pos, SongPosition status = Some pos ->
              0 <= pos < QueueLength status.

(** ** Two shuffle chains *)

(** Modelled from the spec: the Shuffle Chain of [shuffle.h], which is not
    among the sources.  Groups are registered under their index; [window]
    is the FIFO of excluded group ids, oldest first; weighted sampling walks
    the cumulative weights of the included groups with the next draw of the
    chain's random source ([entropy]). *)
Module SpecChain.

Record t : Type := {
  window_size : nat;
  items : list (list string);
  window : list nat;
  entropy : list nat
}.

Definition Len (c : t) : nat := List.length (items c).

Definition LenURIs (c : t) : nat :=
  fold_right (fun g acc => (List.length g + acc)%nat) 0%nat (items c).

Definition Clear (c : t) : t :=
  {| window_size := window_size c; items := []; window := [];
     entropy := entropy c |}.

Definition Add (g : list string) (c : t) : t :=
  {| window_size := window_size c; items := items c ++ [g];
     window := window c; entropy := entropy c |}.

Definition excluded (win : list nat) (id : nat) : bool :=
  existsb (Nat.eqb id) win.

Definition included (c : t) (win : list nat) : list nat :=
  filter (fun id => negb (excluded win id)) (seq 0 (Len c)).

(** Once every group is excluded, the oldest exclusions are given up until
    a group can be selected again. *)
Fixpoint evict (c : t) (win : list nat) : list nat :=
  match win with
  | [] => []
  | _ :: rest =>
      match included c win with
      | [] => evict c rest
      | _ :: _ => win
      end
  end.

Definition weight (c : t) (id : nat) : nat :=
  List.length (nth id (items c) []).

Fixpoint choose (c : t) (ids : list nat) (r : nat) : option nat :=
  match ids with
  | [] => None
  | id :: rest =>
      if (r <? weight c id)%nat then Some id
      else choose c rest (r - weight c id)%nat
  end.

Definition Pick (c : t) : option (list string * t) :=
  match items c with
  | [] => None
  | _ :: _ =>
      let win := evict c (window c) in
      let ids := included c win in
      let total := fold_right (fun id acc => (weight c id + acc)%nat) 0%nat ids in
      let r := (hd 0%nat (entropy c) mod total)%nat in
      let id := match choose c ids r with
                | Some id => id
                | None => hd 0%nat ids
                end in
      let win' :=
        (if (window_size c <=? List.length win)%nat then tl win else win)
          ++ [id] in
      Some (nth id (items c) [],
            {| window_size := window_size c; items := items c;
               window := win'; entropy := tl (entropy c) |})
  end.

End SpecChain.

#[export] Instance SpecChain_ops : ShuffleChainOps SpecChain.t := {
  chain_Clear := SpecChain.Clear;
  chain_Add := SpecChain.Add;
  chain_Pick := SpecChain.Pick;
  chain_Len := SpecChain.Len;
  chain_LenURIs := SpecChain.LenURIs
}.

(** A chain that hands out its groups in turn, the way a test double
    would: the head is picked and moves to the back. *)
Module TurnChain.

Definition t : Type := list (list string).

Definition Pick (c : t) : option (list string * t) :=
  match c with
  | [] => None
  | g :: rest => Some (g, rest ++ [g])
  end.

Definition LenURIs (c : t) : nat :=
  fold_right (fun g acc => (List.length g + acc)%nat) 0%nat c.

End TurnChain.

#[export] Instance TurnChain_ops : ShuffleChainOps TurnChain.t := {
  chain_Clear := fun _ => [];
  chain_Add := fun g c => c ++ [g];
  chain_Pick := TurnChain.Pick;
  chain_Len := @List.length (list string);
  chain_LenURIs := TurnChain.LenURIs
}.

(** ** Sample statuses, options and worlds *)

Definition plain_tweak : Tweak :=
  {| window_size := 7; play_on_startup := false; suspend_timeout := 0;
     exit_on_db_update := false |}.

Definition options_with (buffer : Z) (tw : Tweak) (file : option istream)
  : Options :=
  {| ruleset := []; group_by := []; file_in := file; queue_buffer := buffer;
     tweak := tw |}.

(** The player has no current song. *)
Definition stopped (len : Z) (single : bool) : Status :=
  {| QueueLength := len; Single := single; SongPosition := None;
     IsPlaying := false |}.

(** The player plays the song at [pos]. *)
Definition playing_at (pos len : Z) : Status :=
  {| QueueLength := len; Single := false; SongPosition := Some pos;
     IsPlaying := true |}.

(** A feed that answers with the elements of [l], then with [d]. *)
Definition script {A : Type} (l : list A) (d : A) : Feed A :=
  fun n => nth n l d.

Definition world_of {C : Type} (statuses : Feed Status)
           (idles : Feed IdleEventSet.t) (c : C) : World C :=
  {| status_feed := statuses; idle_feed := idles;
     catalog_feed := fun _ => Some []; songs := c; trace := [] |}.

(** No event at all, over and over. *)
Definition quiet : Feed IdleEventSet.t := fun _ => IdleEventSet.empty.

(** A chain of one group of one song. *)
Definition one_song : TurnChain.t := [["a"]].


(** A chain of two groups, three songs, with a window of one. *)
Definition sample_chain : SpecChain.t :=
  {| SpecChain.window_size := 1;
     SpecChain.items := [["a"]; ["b"; "c"]];
     SpecChain.window := [];
     SpecChain.entropy := [0; 1; 2]%nat |}.

Definition suspending_tweak : Tweak :=
  {| window_size := 7; play_on_startup := false; suspend_timeout := 5;
     exit_on_db_update := false |}.

Definition exiting_tweak : Tweak :=
  {| window_size := 7; play_on_startup := false; suspend_timeout := 0;
     exit_on_db_update := true |}.

Definition starting_tweak : Tweak :=
  {| window_size := 7; play_on_startup := true; suspend_timeout := 0;
     exit_on_db_update := false |}.

(** Production: no [until_f]. *)
Definition forever : TestDelegate := {| until_f := None |}.

(** ** Connecting: [MPDHost], [PromptPassword], [Connect] *)

(** [std::string_view::find] and [substr], as [MPDHost] uses them. *)
Module StringView.

Fixpoint take (n : nat) (s : string) : string :=
  match n, s with
  | S n', String c rest => String c (take n' rest)
  | _, _ => EmptyString
  end.

Fixpoint drop (n : nat) (s : string) : string :=
  match n, s with
  | S n', String _ rest => drop n' rest
  | _, _ => s
  end.

(** [find(needle)]: the position of the first occurrence; [None] is
    [npos]. *)
Fixpoint find_from (needle s : string) (pos : nat) : option nat :=
  if String.prefix needle s then Some pos
  else match s with
       | EmptyString => None
       | String _ rest => find_from needle rest (S pos)
       end.

Definition find (needle s : string) : option nat := find_from needle s 0.

(** [substr(pos, count)]: at most [count] characters from [pos] on;
    [None] is the [std::out_of_range] thrown when [pos > size()]. *)
Definition substr (pos count : nat) (s : string) : option string :=
  if (String.length s <? pos)%nat then None
  else Some (take (Nat.min count (String.length s - pos)) (drop pos s)).

End StringView.

(** [struct MPDHost], lines 125-138. *)
Module MPDHost.

Record t : Type := {
  host : string;
  password : option string
}.

(** The constructor; [None] when a [substr] throws. *)
Definition make (input : string) : option t :=
  match StringView.find "@" input with
  | Some idx =>
      match StringView.substr 0 idx input,
            StringView.substr (idx + 1) (String.length input - idx) input
      with
      | Some pw, Some h => Some {| host := h; password := Some pw |}
      | _, _ => None
      end
  | None => Some {| host := input; password := None |}
  end.

End MPDHost.

(** A string without ["@"]. *)
Definition no_at (s : string) : Prop := StringView.find "@" s = None.

Module Connection.

(** [enum PasswordStatus], [struct Authorization] of [mpd.h]. *)
Inductive PasswordStatus : Type := kAccepted | kRejected.

Record Authorization : Type := {
  authorized : bool;
  missing : list string
}.

(** [struct Address] of [mpd.h]. *)
Record Address : Type := {
  host : string;
  port : Z                       (* unsigned *)
}.

(** The fields of [Options] that [Connect] reads. *)
Record Endpoint : Type := {
  options_host : option string;  (* std::optional<std::string> host *)
  options_port : Z               (* unsigned port, 0 when not given *)
}.

(** What [Connect] and [PromptPassword] do to the outside. *)
Inductive Step : Type :=
| Dial (addr : Address)
| ApplyPassword (password : string)
| CheckCommands (cmds : list string)
| Getpass
| IncorrectPassword                       (* "incorrect password.\n" *)
| MissingCommandsHeader                   (* "Missing MPD Commands:" *)
| MissingCommand (cmd : string).          (* "  " << cmd *)

(** The two calls of [Die]. *)
Inductive Death : Type :=
| FailedToConnect (err : string)
| StillNotAllowed.

Inductive Result : Type :=
| Connected
| Died (why : Death)
| Threw                                   (* out_of_range in MPDHost *)
| Prompting.                              (* the prompt loop has not ended *)

(** The surroundings of a connection attempt: the environment variables,
    the dialer, and what the server and the user answer. *)
Record Env : Type := {
  MPD_HOST : option string;
  MPD_PORT : option string;
  dialer : Address -> option string;        (* the error, if Dial fails *)
  password_answers : Feed PasswordStatus;   (* answers of ApplyPassword *)
  command_answers : Feed Authorization;     (* answers of CheckCommands *)
  typed : Feed string;                      (* what getpass_f returns *)
  steps : list Step
}.

Definition did (new : list Step) (e : Env) : Env :=
  {| MPD_HOST := MPD_HOST e; MPD_PORT := MPD_PORT e; dialer := dialer e;
     password_answers := password_answers e;
     command_answers := command_answers e; typed := typed e;
     steps := steps e ++ new |}.

(** [getpass_f()] *)
Definition getpass_f (e : Env) : string * Env :=
  (typed e 0%nat,
   {| MPD_HOST := MPD_HOST e; MPD_PORT := MPD_PORT e; dialer := dialer e;
      password_answers := password_answers e;
      command_answers := command_answers e; typed := feed_next (typed e);
      steps := steps e ++ [Getpass] |}).

(** [mpd->ApplyPassword(pass)] *)
Definition apply_password (pass : string) (e : Env) : PasswordStatus * Env :=
  (password_answers e 0%nat,
   {| MPD_HOST := MPD_HOST e; MPD_PORT := MPD_PORT e; dialer := dialer e;
      password_answers := feed_next (password_answers e);
      command_answers := command_answers e; typed := typed e;
      steps := steps e ++ [ApplyPassword pass] |}).

(** [mpd->CheckCommands(cmds)] *)
Definition check_commands (cmds : list string) (e : Env)
  : Authorization * Env :=
  (command_answers e 0%nat,
   {| MPD_HOST := MPD_HOST e; MPD_PORT := MPD_PORT e; dialer := dialer e;
      password_answers := password_answers e;
      command_answers := feed_next (command_answers e); typed := typed e;
      steps := steps e ++ [CheckCommands cmds] |}).

(** Lines 33-35. *)
Definition kRequiredCommands : list string :=
  ["add"; "status"; "play"; "pause"; "idle"].

(** [PromptPassword], lines 113-123: [while (true)], with fuel; [None]
    when the fuel is used up. *)
Fixpoint PromptPassword (fuel : nat) (e : Env) : option Env :=
  match fuel with
  | O => None
  | S fuel' =>
      let (pass, e1) := getpass_f e in
      let (status, e2) := apply_password pass e1 in
      match status with
      | kAccepted => Some e2
      | kRejected => PromptPassword fuel' (did [IncorrectPassword] e2)
      end
  end.

(** [Connect], lines 206-271.  [atoi] is the C library's. *)
Definition Connect (atoi : string -> Z) (options : Endpoint) (fuel : nat)
           (e : Env) : Result * Env :=
  let env_host := match MPD_HOST e with
                  | Some h => h
                  | None => "localhost"
                  end in
  let mpd_host_raw := match options_host options with
                      | Some h => h
                      | None => env_host
                      end in
  match MPDHost.make mpd_host_raw with
  | None => (Threw, e)
  | Some mpd_host =>
      let mpd_port :=
        if negb (options_port options =? 0) then options_port options
        else Int32.to_unsigned (match MPD_PORT e with
                                | Some p => atoi p
                                | None => 6600
                                end) in
      let addr := {| host := MPDHost.host mpd_host; port := mpd_port |} in
      let e := did [Dial addr] e in
      match dialer e addr with
      | Some err => (Died (FailedToConnect err), e)
      | None =>
          let e := match MPDHost.password mpd_host with
                   | Some pw => snd (apply_password pw e)
                   | None => e
                   end in
          let (auth, e) := check_commands kRequiredCommands e in
          let prompted :=
            if match MPDHost.password mpd_host with
               | Some _ => false
               | None => true
               end && negb (authorized auth)
            then match PromptPassword fuel e with
                 | Some e' => Some (check_commands kRequiredCommands e')
                 | None => None
                 end
            else Some (auth, e) in
          match prompted with
          | None => (Prompting, e)
          | Some (auth, e) =>
              if negb (authorized auth) then
                (Died StillNotAllowed,
                 did (MissingCommandsHeader
                        :: map MissingCommand (missing auth)) e)
              else (Connected, e)
          end
      end
  end.

(** The first [n] answers to [ApplyPassword] are rejections, the next one
    is an acceptance. *)
Definition accepted_at (n : nat) (e : Env) : Prop :=
  (forall k, (k < n)%nat -> password_answers e k = kRejected) /\
  password_answers e n = kAccepted.

(** The steps of [n] rejected passwords. *)
Fixpoint rejected_steps (passwords : Feed string) (n : nat) : list Step :=
  match n with
  | O => []
  | S n' =>
      Getpass :: ApplyPassword (passwords 0%nat) :: IncorrectPassword
        :: rejected_steps (feed_next passwords) n'
  end.

(** Lines 210-213: the host string [Connect] parses. *)
Definition mpd_host_raw (options : Endpoint) (e : Env) : string :=
  match options_host options with
  | Some h => h
  | None => match MPD_HOST e with
            | Some h => h
            | None => "localhost"
            end
  end.

(** Lines 218-221: the port [Connect] dials. *)
Definition mpd_port (atoi : string -> Z) (options : Endpoint) (e : Env) : Z :=
  if negb (options_port options =? 0) then options_port options
  else Int32.to_unsigned (match MPD_PORT e with
                          | Some p => atoi p
                          | None => 6600
                          end).

(** What [Connect] writes before it dies of a refused command. *)
Definition refusal_steps (auth : Authorization) : list Step :=
  if authorized auth then []
  else MissingCommandsHeader :: map MissingCommand (missing auth).

(** How [Connect] ends after its last [CheckCommands]. *)
Definition verdict (auth : Authorization) : Result :=
  if authorized auth then Connected else Died StillNotAllowed.

Definition env_of (env_host env_port : option string)
           (dial : Address -> option string)
           (passwords : Feed PasswordStatus) (commands : Feed Authorization)
           (keyboard : Feed string) : Env :=
  {| MPD_HOST := env_host; MPD_PORT := env_port; dialer := dial;
     password_answers := passwords; command_answers := commands;
     typed := keyboard; steps := [] |}.

End Connection.

(** Unfolds the steps of a connection attempt. *)
Ltac conn_simpl :=
  unfold Connection.did, Connection.check_commands,
    Connection.apply_password, Connection.getpass_f;
  cbn [Connection.MPD_HOST Connection.MPD_PORT Connection.dialer
       Connection.password_answers Connection.command_answers
       Connection.typed Connection.steps fst snd andb negb].

(** ** Vocabulary for whole runs *)

(** An event of [enum mpd_idle]: a single bit. *)
Definition single_bit (event : Z) : Prop := exists k, 0 <= k /\ event = 2 ^ k.

Section Runs.

Context {C : Type} `{ShuffleChainOps C}.

(** A computation keeps a discipline: started in a world of [I] it ends
    in a world of [I], every call it makes is [allowed], and a value it
    returns satisfies [Q]. *)
Definition disciplined (allowed : Call -> Prop) (I : World C -> Prop)
           {A : Type} (Q : A -> Prop) (m : @M C A) : Prop :=
  forall w, I w ->
    I (snd (m w)) /\
    (exists delta,
        trace (snd (m w)) = trace w ++ delta /\ Forall allowed delta) /\
    (forall a, fst (m w) = Returned a -> Q a).

(** A computation that ends the process does so as [E] says. *)
Definition exits_as (E : Z -> World C -> Prop) {A : Type} (m : @M C A)
  : Prop :=
  forall w code, fst (m w) = Exited code -> E code (snd (m w)).

(** A call of the append loop: a [Pick] or an [Add]. *)
Definition pick_or_add (c : Call) : Prop :=
  c = CallPick \/ exists uri, c = CallAdd uri.

(** A computation that never ends the process. *)
Definition never_exits {A : Type} (m : @M C A) : Prop :=
  forall w code, fst (m w) <> Exited code.

(** A computation that never hands the control back. *)
Definition never_returns {A : Type} (m : @M C A) : Prop :=
  forall w a, fst (m w) <> Returned a.

(** The only way [Loop] ends the process, lines 176-179: with status 0,
    configured to exit on a database update, right after an [Idle] and the
    farewell line. *)
Definition database_exit (options : Options) (code : Z) (w : World C)
  : Prop :=
  code = 0 /\
  exit_on_db_update (tweak options) = true /\
  exists before,
    trace w = before ++ [CallIdle idle_set; CallPrint DatabaseUpdatedExiting].

(** A set of events with none of those [Loop] acts on. *)
Definition nothing_to_do (events : IdleEventSet.t) : Prop :=
  IdleEventSet.Has events MPD_IDLE_DATABASE = false /\
  IdleEventSet.Has events MPD_IDLE_QUEUE = false /\
  IdleEventSet.Has events MPD_IDLE_PLAYER = false.

End Runs.

(** * Properties *)

Unset Implicit Arguments.

(** ** Machine integers *)

Lemma to_unsigned_small (z : Z) :
  Int32.is_unsigned z -> Int32.to_unsigned z = z.
Proof.
  unfold Int32.is_unsigned, Int32.to_unsigned, Int32.UINT_MAX, Int32.modulus.
  intros Hz. apply Z.mod_small. lia.
Qed.

Lemma to_int_small (z : Z) : Int32.is_int z -> Int32.to_int z = z.
Proof.
  unfold Int32.is_int, Int32.to_int, Int32.INT_MAX, Int32.INT_MIN,
    Int32.modulus.
  intros Hz. destruct (Z_lt_le_dec z 0) as [Hneg | Hpos].
  - assert (Hmod : z mod 2 ^ 32 = z + 2 ^ 32).
    { replace z with ((z + 2 ^ 32) + (-1) * 2 ^ 32) at 1 by lia.
      rewrite Z_mod_plus_full. apply Z.mod_small. lia. }
    rewrite Hmod. cbv zeta.
    destruct (z + 2 ^ 32 <? 2 ^ 31) eqn:E.
    + apply Z.ltb_lt in E. lia.
    + lia.
  - rewrite Z.mod_small by lia.
    destruct (z <? 2 ^ 31) eqn:E.
    + reflexivity.
    + apply Z.ltb_ge in E. lia.
Qed.

(** A size that an [int] cannot hold spoils the count of line 91: the
    converted size of a group of 2^32 identifiers is 0, and [needed] stays
    what it was. *)
Lemma needed_after_oversized_group (needed : Z) (g : list string) :
  Int32.is_int needed ->
  Z.of_nat (List.length g) = 2 ^ 32 ->
  Int32.to_int (needed - Int32.to_int (Z.of_nat (List.length g))) = needed.
Proof.
  intros Hint Hsize. rewrite Hsize.
  change (Int32.to_int (2 ^ 32)) with 0. rewrite Z.sub_0_r.
  apply to_int_small. exact Hint.
Qed.

Lemma to_int_mod (z : Z) :
  Int32.to_int z mod Int32.modulus = z mod Int32.modulus.
Proof.
  unfold Int32.to_int. cbv zeta.
  destruct (z mod Int32.modulus <? 2 ^ 31).
  - apply Z.mod_mod. unfold Int32.modulus. lia.
  - replace (z mod Int32.modulus - Int32.modulus)
      with (z mod Int32.modulus + (-1) * Int32.modulus) by lia.
    rewrite Z_mod_plus_full. apply Z.mod_mod. unfold Int32.modulus. lia.
Qed.

Lemma to_unsigned_minus_to_int (a b : Z) :
  Int32.to_unsigned (a - Int32.to_int b) = Int32.to_unsigned (a - b).
Proof.
  unfold Int32.to_unsigned.
  rewrite Zminus_mod, to_int_mod, <- Zminus_mod. reflexivity.
Qed.

(** ** Counting the songs after the current one *)

Lemma count_after (pos : Z) (n : nat) :
  0 <= pos ->
  List.length (filter (fun i => pos <? Z.of_nat i) (seq 0 n))
  = (n - Nat.min n (Z.to_nat pos + 1))%nat.
Proof.
  intros Hpos. induction n as [| n IH].
  - reflexivity.
  - rewrite seq_S, filter_app, length_app, IH. cbn [filter Nat.add].
    destruct (pos <? Z.of_nat n) eqn:E.
    + apply Z.ltb_lt in E. cbn [List.length]. lia.
    + apply Z.ltb_ge in E. cbn [List.length]. lia.
Qed.

Lemma songs_after_eq (pos len : Z) :
  0 <= pos < len -> songs_after pos len = len - (pos + 1).
Proof.
  intros Hpos. unfold songs_after. rewrite count_after by lia. lia.
Qed.

Lemma queue_songs_remaining_eq (status : Status) :
  status_ok status -> queue_songs_remaining status = remaining status.
Proof.
  intros [Hlen Hpos]. unfold queue_songs_remaining, remaining.
  destruct (SongPosition status) as [pos |]; [| reflexivity].
  specialize (Hpos pos eq_refl).
  unfold Int32.is_unsigned, Int32.UINT_MAX in Hlen.
  rewrite to_unsigned_minus_to_int.
  rewrite to_unsigned_small
    by (unfold Int32.is_unsigned, Int32.UINT_MAX; lia).
  symmetry. apply songs_after_eq. exact Hpos.
Qed.

(** ** The enqueue decision *)

(** C2.  For a status as the player reports it (the song position, when
    there is one, is a position of the queue, hence below the queue
    length), [should_add] holds exactly when there is no current song
    position, or the number of queued songs strictly after the current
    position (0 without a current song) is strictly below [queue_buffer],
    or the queue length is 0. *)
Theorem should_add_iff (status : Status) (options : Options) :
  status_ok status ->
  should_add status options = true <->
  (past_last status = true \/
   remaining status < queue_buffer options \/
   QueueLength status = 0).
Proof.
  intros Hok. unfold should_add.
  rewrite (queue_songs_remaining_eq status Hok). unfold queue_empty.
  destruct (past_last status).
  - split; [left; reflexivity | reflexivity].
  - destruct (remaining status <? queue_buffer options) eqn:Hrem.
    + apply Z.ltb_lt in Hrem. split; [right; left; exact Hrem | reflexivity].
    + apply Z.ltb_ge in Hrem.
      destruct (QueueLength status =? 0) eqn:Hq.
      * apply Z.eqb_eq in Hq. split; [right; right; exact Hq | reflexivity].
      * apply Z.eqb_neq in Hq. split; [discriminate |].
        intros [Hp | [Hr | Hz]]; [discriminate | lia | contradiction].
Qed.

Lemma should_add_iff_witness :
  let status := {| QueueLength := 5; Single := false;
                   SongPosition := Some 3; IsPlaying := true |} in
  let options := {| ruleset := []; group_by := []; file_in := None;
                    queue_buffer := 2;
                    tweak := {| window_size := 7; play_on_startup := false;
                                suspend_timeout := 0;
                                exit_on_db_update := false |} |} in
  status_ok status /\
  (should_add status options = true <->
   (past_last status = true \/
    remaining status < queue_buffer options \/
    QueueLength status = 0)).
Proof.
  intros status options.
  assert (Hok : status_ok status).
  { split.
    - unfold Int32.is_unsigned, Int32.UINT_MAX. simpl. lia.
    - intros pos Hpos. injection Hpos as <-. simpl. lia. }
  split; [exact Hok | exact (should_add_iff status options Hok)].
Defined.

Section MaintainerFacts.

Context {C : Type} {ops : ShuffleChainOps C}.

(** ** Worlds and traces *)

Lemma extend_nil (w : World C) : extend [] w = w.
Proof. unfold extend. rewrite app_nil_r. reflexivity. Qed.

Lemma extend_extend (cs1 cs2 : list Call) (w : World C) :
  extend cs2 (extend cs1 w) = extend (cs1 ++ cs2) w.
Proof. unfold extend. cbn. rewrite app_assoc. reflexivity. Qed.

Lemma with_songs_same (w : World C) : with_songs (songs w) w = w.
Proof. reflexivity. Qed.

Lemma with_songs_extend (c : C) (cs : list Call) (w : World C) :
  with_songs c (extend cs w) = extend cs (with_songs c w).
Proof. reflexivity. Qed.

Lemma next_status_extend (cs : list Call) (w : World C) :
  next_status (extend cs w) = extend cs (next_status w).
Proof. reflexivity. Qed.

Lemma with_songs_twice (c c1 : C) (w : World C) :
  with_songs c (with_songs c1 w) = with_songs c w.
Proof. reflexivity. Qed.

Lemma AddAll_run (uris : list string) (w : World C) :
  AddAll uris w = (Returned tt, extend (map CallAdd uris) w).
Proof.
  revert w. induction uris as [| u rest IH]; intros w.
  - cbn. rewrite extend_nil. reflexivity.
  - cbn [AddAll map]. unfold bind, Add, emit, record. rewrite IH.
    rewrite extend_extend. reflexivity.
Qed.

Lemma Pick_run (w : World C) (g : list string) (c' : C) :
  chain_Pick (songs w) = Some (g, c') ->
  Pick w = (Returned g, extend [CallPick] (with_songs c' w)).
Proof. intros E. unfold Pick. rewrite E. reflexivity. Qed.

Lemma Pick_fail (w : World C) :
  chain_Pick (songs w) = None ->
  Pick w = (Failed EmptyChain, extend [CallPick] w).
Proof. intros E. unfold Pick. rewrite E. reflexivity. Qed.

Lemma Pick_bind (A : Type) (k : list string -> M A) (w : World C)
      (g : list string) (c' : C) :
  chain_Pick (songs w) = Some (g, c') ->
  bind Pick k w = k g (extend [CallPick] (with_songs c' w)).
Proof. intros E. unfold bind. rewrite (Pick_run w g c' E). reflexivity. Qed.

Lemma AddAll_bind (A : Type) (k : unit -> M A) (uris : list string)
      (w : World C) :
  bind (AddAll uris) k w = k tt (extend (map CallAdd uris) w).
Proof. unfold bind. rewrite AddAll_run. reflexivity. Qed.

(** ** The picks to come *)

Lemma picks_well_step (c : C) :
  picks_well c ->
  exists g c', chain_Pick c = Some (g, c') /\
               1 <= Z.of_nat (List.length g) <= Int32.INT_MAX /\
               picks_well c'.
Proof.
  intros Hw. destruct (Hw 0%nat) as [g [Hg Hsize]]. cbn in Hg.
  destruct (chain_Pick c) as [[g0 c'] |] eqn:E; [| discriminate].
  injection Hg as ->. exists g, c'. repeat split; try tauto.
  intros n. specialize (Hw (S n)). cbn in Hw. rewrite E in Hw. exact Hw.
Qed.


(** ** The append loop *)

Lemma total_uris_nonneg (gs : list (list string)) : 0 <= total_uris gs.
Proof.
  unfold total_uris. induction gs as [| g gs IH]; cbn [fold_right]; lia.
Qed.

Lemma to_int_range (z : Z) : Int32.is_int (Int32.to_int z).
Proof.
  unfold Int32.is_int, Int32.to_int, Int32.INT_MIN, Int32.INT_MAX. cbv zeta.
  assert (Hm : 0 <= z mod Int32.modulus < Int32.modulus)
    by (apply Z.mod_pos_bound; unfold Int32.modulus; lia).
  unfold Int32.modulus in *.
  destruct (z mod 2 ^ 32 <? 2 ^ 31) eqn:E.
  - apply Z.ltb_lt in E. lia.
  - apply Z.ltb_ge in E. lia.
Qed.

Lemma enqueue_loop_done (fuel : nat) (needed : Z) :
  needed <= 0 -> enqueue_loop fuel needed = ret tt.
Proof.
  intros Hn. assert (E : (needed >? 0) = false).
  { rewrite Z.gtb_ltb. apply Z.ltb_ge. exact Hn. }
  destruct fuel; cbn; rewrite E; reflexivity.
Qed.


(** One turn of the loop: [needed] goes down by the size of the group. *)
Lemma enqueue_loop_step (fuel : nat) (needed : Z) (w : World C)
      (g : list string) (c' : C) :
  0 < needed -> Int32.is_int needed ->
  chain_Pick (songs w) = Some (g, c') ->
  0 <= Z.of_nat (List.length g) <= Int32.INT_MAX ->
  enqueue_loop (S fuel) needed w
  = enqueue_loop fuel (needed - Z.of_nat (List.length g))
                 (extend (group_calls g) (with_songs c' w)).
Proof.
  intros Hn Hint E Hsize. cbn [enqueue_loop].
  replace (needed >? 0) with true
    by (symmetry; rewrite Z.gtb_ltb; apply Z.ltb_lt; exact Hn).
  rewrite (Pick_bind _ _ w g c' E). cbv zeta.
  rewrite AddAll_bind, extend_extend. fold (group_calls g).
  unfold Int32.is_int, Int32.INT_MIN, Int32.INT_MAX in *.
  rewrite (to_int_small (Z.of_nat (List.length g)))
    by (unfold Int32.is_int, Int32.INT_MIN, Int32.INT_MAX; lia).
  rewrite to_int_small
    by (unfold Int32.is_int, Int32.INT_MIN, Int32.INT_MAX; lia).
  reflexivity.
Qed.

(** With groups of one identifier at least, the loop is over after at most
    [needed] turns; it stops at the first group that brings the number of
    appended identifiers to [needed]. *)
Lemma enqueue_loop_total (fuel : nat) :
  forall (needed : Z) (w : World C),
    picks_well (songs w) -> Int32.is_int needed ->
    needed <= Z.of_nat fuel ->
    exists gs c',
      pick_many (List.length gs) (songs w) = Some (gs, c') /\
      enqueue_loop fuel needed w
      = (Returned tt, extend (groups_calls gs) (with_songs c' w)) /\
      picks_well c' /\
      (forall k, (k < List.length gs)%nat ->
                 total_uris (firstn k gs) < needed) /\
      needed <= total_uris gs /\
      Z.of_nat (List.length gs) <= Z.max 0 needed.
Proof.
  induction fuel as [| fuel IH]; intros needed w Hw Hint Hfuel.
  - exists [], (songs w). cbn [List.length pick_many].
    rewrite enqueue_loop_done by lia. unfold groups_calls. cbn [flat_map].
    rewrite extend_nil.
    refine (conj eq_refl (conj eq_refl (conj Hw (conj _ (conj _ _))))).
    + intros k Hk. cbn in Hk. lia.
    + cbn. lia.
    + cbn. lia.
  - destruct (Z_lt_le_dec 0 needed) as [Hpos | Hle].
    + destruct (picks_well_step _ Hw) as [g [c1 [E [Hsize Hw1]]]].
      rewrite (enqueue_loop_step fuel needed w g c1 Hpos Hint E) by lia.
      destruct (IH (needed - Z.of_nat (List.length g))
                   (extend (group_calls g) (with_songs c1 w)))
        as [gs [c' [Hmany [Hrun [Hw' [Hpre [Htot Hlen]]]]]]].
      * exact Hw1.
      * unfold Int32.is_int, Int32.INT_MIN, Int32.INT_MAX in *. lia.
      * lia.
      * exists (g :: gs), c'. cbn [List.length pick_many].
        rewrite E. cbn [songs extend with_songs] in Hmany. rewrite Hmany.
        rewrite Hrun, with_songs_extend, extend_extend, with_songs_twice.
        change (group_calls g ++ groups_calls gs)
          with (groups_calls (g :: gs)).
        refine (conj eq_refl (conj eq_refl (conj Hw' (conj _ (conj _ _))))).
        -- intros [| k] Hk; cbn [firstn total_uris fold_right].
           ++ exact Hpos.
           ++ assert (Hk' : (k < List.length gs)%nat) by (cbn in Hk; lia).
              specialize (Hpre k Hk'). unfold total_uris in Hpre. lia.
        -- unfold total_uris in *. cbn [fold_right]. lia.
        -- cbn [List.length]. lia.
    + exists [], (songs w). cbn [List.length pick_many].
      rewrite enqueue_loop_done by lia. unfold groups_calls. cbn [flat_map].
      rewrite extend_nil.
      refine (conj eq_refl (conj eq_refl (conj Hw (conj _ (conj _ _))))).
      * intros k Hk. cbn in Hk. lia.
      * cbn. lia.
      * cbn. lia.
Qed.


(** ** [TryEnqueue] *)

Lemma CurrentStatus_bind (A : Type) (k : Status -> M A) (w : World C) :
  bind CurrentStatus k w
  = k (status_feed w 0%nat) (extend [CallCurrentStatus] (next_status w)).
Proof. reflexivity. Qed.

Lemma needed_init_int (status : Status) (options : Options) :
  Int32.is_int (needed_init status options).
Proof.
  unfold needed_init.
  destruct (past_last status || queue_empty status); apply to_int_range.
Qed.

Lemma queue_songs_remaining_nonneg (status : Status) :
  0 <= queue_songs_remaining status.
Proof.
  unfold queue_songs_remaining, Int32.to_unsigned.
  destruct (SongPosition status); [| lia].
  apply Z.mod_pos_bound. unfold Int32.modulus. lia.
Qed.

(** Without a buffer, adding means restarting. *)
Lemma should_add_unbuffered (status : Status) (options : Options) :
  queue_buffer options = 0 -> should_add status options = true ->
  past_last status || queue_empty status = true.
Proof.
  intros Hqb. unfold should_add. rewrite Hqb.
  destruct (past_last status); [reflexivity |].
  replace (queue_songs_remaining status <? 0) with false.
  - destruct (queue_empty status); [reflexivity | discriminate].
  - symmetry. apply Z.ltb_ge. apply queue_songs_remaining_nonneg.
Qed.

Lemma restart_phase_run (status : Status) (options : Options) (w : World C) :
  restart_phase status options w
  = (Returned tt, extend (restart_delta status options) w).
Proof.
  unfold restart_phase, restart_delta, restart_calls.
  destruct (should_add status options
            && (past_last status || queue_empty status)).
  - unfold bind, PlayAt, Pause, emit, record, ret.
    destruct (Single status).
    + rewrite extend_extend. reflexivity.
    + reflexivity.
  - unfold ret. rewrite extend_nil. reflexivity.
Qed.

Lemma enqueue_phase_total (fuel : nat) (status : Status) (options : Options)
      (w : World C) :
  picks_well (songs w) ->
  needed_init status options <= Z.of_nat fuel ->
  exists gs c',
    pick_many (List.length gs) (songs w) = Some (gs, c') /\
    enqueue_phase fuel status options w
    = (Returned tt, extend (groups_calls gs) (with_songs c' w)).
Proof.
  intros Hw Hfuel. unfold enqueue_phase.
  destruct (should_add status options).
  - destruct (queue_buffer options =? 0); cbn [negb].
    + destruct (picks_well_step _ Hw) as [g [c1 [E _]]].
      exists [g], c1. cbn [List.length pick_many]. rewrite E.
      split; [reflexivity |].
      rewrite (Pick_bind _ _ w g c1 E), AddAll_run, extend_extend.
      unfold groups_calls. cbn [flat_map]. rewrite app_nil_r. reflexivity.
    + destruct (enqueue_loop_total fuel _ w Hw
                                   (needed_init_int status options) Hfuel)
        as [gs [c' [Hmany [Hrun _]]]].
      exists gs, c'. split; assumption.
  - exists [], (songs w). split; [reflexivity |].
    unfold ret, groups_calls. cbn [flat_map]. rewrite extend_nil.
    reflexivity.
Qed.

(** [TryEnqueue] from the status on: the enqueue phase, then the restart. *)
Lemma TryEnqueue_phases (fuel : nat) (options : Options) (w w1 : World C) :
  enqueue_phase fuel (status_feed w 0%nat) options
                (extend [CallCurrentStatus] (next_status w))
  = (Returned tt, w1) ->
  TryEnqueue fuel options w
  = (Returned tt, extend (restart_delta (status_feed w 0%nat) options) w1).
Proof.
  intros Hphase. unfold TryEnqueue. rewrite CurrentStatus_bind.
  unfold bind at 1. rewrite Hphase. apply restart_phase_run.
Qed.

Lemma TryEnqueue_total (fuel : nat) (options : Options) (w : World C) :
  picks_well (songs w) ->
  needed_init (status_feed w 0%nat) options <= Z.of_nat fuel ->
  exists gs c',
    pick_many (List.length gs) (songs w) = Some (gs, c') /\
    TryEnqueue fuel options w
    = (Returned tt,
       extend (CallCurrentStatus :: groups_calls gs
                 ++ restart_delta (status_feed w 0%nat) options)
              (with_songs c' (next_status w))).
Proof.
  intros Hw Hfuel.
  destruct (enqueue_phase_total fuel (status_feed w 0%nat) options
              (extend [CallCurrentStatus] (next_status w)) Hw Hfuel)
    as [gs [c' [Hmany Hrun]]].
  exists gs, c'. split; [exact Hmany |].
  rewrite (TryEnqueue_phases fuel options w _ Hrun).
  rewrite with_songs_extend, !extend_extend. reflexivity.
Qed.

Lemma In_groups_calls (c : Call) (gs : list (list string)) :
  In c (groups_calls gs) -> c = CallPick \/ exists uri, c = CallAdd uri.
Proof.
  unfold groups_calls. rewrite in_flat_map. intros [g [_ Hin]].
  destruct Hin as [<- | Hin]; [left; reflexivity |].
  apply in_map_iff in Hin. destruct Hin as [uri [<- _]].
  right. exists uri. reflexivity.
Qed.

(** The restart of lines 99-110, whatever was appended before it.  When
    [should_add] holds together with [past_last] or [queue_empty], the
    enqueue decision, once the groups it picked are appended, tells the
    player to play at the queue length that the status reported, and then
    pauses exactly when the status reports single mode: of all its calls,
    the only [PlayAt] is this one, it comes after every [Add], and a
    [Pause] is among the calls if and only if single mode is on.  Whether
    anything was appended is not part of this statement. *)
Theorem TryEnqueue_restarts_playback (fuel : nat) (options : Options)
        (w : World C) :
  let status := status_feed w 0%nat in
  picks_well (songs w) ->
  needed_init status options <= Z.of_nat fuel ->
  should_add status options = true ->
  past_last status || queue_empty status = true ->
  exists gs c' calls,
    pick_many (List.length gs) (songs w) = Some (gs, c') /\
    calls = CallCurrentStatus :: groups_calls gs
              ++ CallPlayAt (QueueLength status)
              :: (if Single status then [CallPause] else []) /\
    TryEnqueue fuel options w
    = (Returned tt, extend calls (with_songs c' (next_status w))) /\
    (forall position, In (CallPlayAt position) calls ->
                      position = QueueLength status) /\
    (In CallPause calls <-> Single status = true).
Proof.
  intros status Hw Hfuel Hadd Hrestart.
  destruct (TryEnqueue_total fuel options w Hw Hfuel)
    as [gs [c' [Hmany Hrun]]].
  fold status in Hrun. unfold restart_delta, restart_calls in Hrun.
  rewrite Hadd, Hrestart in Hrun. cbn [andb] in Hrun.
  exists gs, c'. eexists. split; [exact Hmany |]. split; [reflexivity |].
  split; [exact Hrun |]. split.
  - intros position [Habs | Hin]; [discriminate |].
    apply in_app_or in Hin. destruct Hin as [Hin | [Heq | Hin]].
    + apply In_groups_calls in Hin.
      destruct Hin as [Habs | [uri Habs]]; discriminate.
    + injection Heq as <-. reflexivity.
    + destruct (Single status); [| contradiction].
      destruct Hin as [Habs | []]. discriminate.
  - split.
    + intros [Habs | Hin]; [discriminate |].
      apply in_app_or in Hin. destruct Hin as [Hin | [Habs | Hin]].
      * apply In_groups_calls in Hin.
        destruct Hin as [Habs | [uri Habs]]; discriminate.
      * discriminate.
      * destruct (Single status); [reflexivity | contradiction].
    + intros Hsingle. rewrite Hsingle. right. apply in_or_app. right.
      right. left. reflexivity.
Qed.

(** C5.  When [should_add] holds and [queue_buffer] is 0, the enqueue
    decision makes one [Pick] and appends the identifiers of that one
    group, whatever its size, before it restarts playback; so it does in
    particular on an empty queue without a current song. *)
Theorem TryEnqueue_unbuffered_picks_once :
  (forall (fuel : nat) (options : Options) (w : World C)
          (g : list string) (c' : C),
      let status := status_feed w 0%nat in
      queue_buffer options = 0 ->
      should_add status options = true ->
      chain_Pick (songs w) = Some (g, c') ->
      TryEnqueue fuel options w
      = (Returned tt,
         extend (CallCurrentStatus :: CallPick :: map CallAdd g
                   ++ CallPlayAt (QueueLength status)
                   :: (if Single status then [CallPause] else []))
                (with_songs c' (next_status w)))) /\
  (forall (fuel : nat) (options : Options) (w : World C)
          (g : list string) (c' : C),
      let status := status_feed w 0%nat in
      queue_buffer options = 0 ->
      QueueLength status = 0 -> SongPosition status = None ->
      chain_Pick (songs w) = Some (g, c') ->
      TryEnqueue fuel options w
      = (Returned tt,
         extend (CallCurrentStatus :: CallPick :: map CallAdd g
                   ++ CallPlayAt 0
                   :: (if Single status then [CallPause] else []))
                (with_songs c' (next_status w)))).
Proof.
  assert (Hgen : forall (fuel : nat) (options : Options) (w : World C)
                        (g : list string) (c' : C),
             queue_buffer options = 0 ->
             should_add (status_feed w 0%nat) options = true ->
             chain_Pick (songs w) = Some (g, c') ->
             TryEnqueue fuel options w
             = (Returned tt,
                extend (CallCurrentStatus :: CallPick :: map CallAdd g
                          ++ restart_calls (status_feed w 0%nat))
                       (with_songs c' (next_status w)))).
  { intros fuel options w g c' Hqb Hadd E.
    assert (Hphase :
              enqueue_phase fuel (status_feed w 0%nat) options
                            (extend [CallCurrentStatus] (next_status w))
              = (Returned tt,
                 extend (CallCurrentStatus :: group_calls g)
                        (with_songs c' (next_status w)))).
    { unfold enqueue_phase. rewrite Hadd, Hqb. cbn [Z.eqb negb].
      rewrite (Pick_bind _ _ _ g c') by exact E.
      rewrite AddAll_run, with_songs_extend, !extend_extend. reflexivity. }
    rewrite (TryEnqueue_phases fuel options w _ Hphase). unfold restart_delta.
    rewrite Hadd, (should_add_unbuffered _ _ Hqb Hadd). cbn [andb].
    rewrite extend_extend. reflexivity. }
  split.
  - intros fuel options w g c' status Hqb Hadd E.
    exact (Hgen fuel options w g c' Hqb Hadd E).
  - intros fuel options w g c' status Hqb Hlen Hpos E.
    assert (Hadd : should_add status options = true).
    { unfold should_add, past_last. rewrite Hpos. reflexivity. }
    rewrite (Hgen fuel options w g c' Hqb Hadd E).
    unfold restart_calls. fold status. rewrite Hlen. reflexivity.
Qed.

(** ** The buffered enqueue, within the range of [int] *)

Lemma total_uris_app (gs1 gs2 : list (list string)) :
  total_uris (gs1 ++ gs2) = total_uris gs1 + total_uris gs2.
Proof.
  unfold total_uris. induction gs1 as [| g gs1 IH]; cbn [app fold_right].
  - reflexivity.
  - rewrite IH. lia.
Qed.

(** Stopping at the first group that reaches [needed] leaves an excess
    below the size of that group. *)
Lemma overshoot_below_last (gs : list (list string)) (needed : Z) :
  0 < needed ->
  (forall k, (k < List.length gs)%nat -> total_uris (firstn k gs) < needed) ->
  needed <= total_uris gs ->
  gs <> [] /\
  total_uris gs - needed < Z.of_nat (List.length (last gs [])).
Proof.
  intros Hpos Hpre Htot.
  destruct (exists_last (l := gs)) as [gs0 [g Hgs]].
  - intros ->. cbn in Htot. lia.
  - subst gs. split.
    + intros Habs. apply app_eq_nil in Habs. destruct Habs; discriminate.
    + specialize (Hpre (List.length gs0)).
      rewrite length_app, firstn_app, firstn_all, Nat.sub_diag in Hpre.
      cbn [firstn List.length] in Hpre. rewrite app_nil_r in Hpre.
      rewrite last_last, total_uris_app. cbn [total_uris fold_right].
      assert (total_uris gs0 < needed) by (apply Hpre; lia). lia.
Qed.

Lemma remaining_nonneg (status : Status) : 0 <= remaining status.
Proof.
  unfold remaining, songs_after. destruct (SongPosition status); lia.
Qed.

(** [needed] is what the decision says as long as [queue_buffer + 1] is an
    [int]. *)
Lemma needed_init_in_range (status : Status) (options : Options) :
  status_ok status ->
  0 < queue_buffer options -> queue_buffer options + 1 <= Int32.INT_MAX ->
  should_add status options = true ->
  needed_init status options
  = queue_buffer options - remaining status
    + (if past_last status || queue_empty status then 1 else 0)
  /\ 0 < needed_init status options.
Proof.
  intros Hok Hqb Hmax Hadd. unfold needed_init.
  rewrite (queue_songs_remaining_eq status Hok).
  pose proof (remaining_nonneg status) as Hrem.
  assert (Hlt : remaining status < queue_buffer options
                \/ remaining status = 0).
  { unfold should_add in Hadd.
    rewrite (queue_songs_remaining_eq status Hok) in Hadd.
    unfold past_last, queue_empty in Hadd. destruct Hok as [_ Hposition].
    unfold remaining in *.
    destruct (SongPosition status) as [pos |]; [| right; reflexivity].
    specialize (Hposition pos eq_refl).
    destruct (songs_after pos (QueueLength status) <? queue_buffer options)
      eqn:Hlt.
    - left. apply Z.ltb_lt. exact Hlt.
    - destruct (QueueLength status =? 0) eqn:Hz; [| discriminate].
      apply Z.eqb_eq in Hz. lia. }
  unfold Int32.INT_MAX in Hmax.
  rewrite (to_int_small (queue_buffer options))
    by (unfold Int32.is_int, Int32.INT_MIN, Int32.INT_MAX; lia).
  rewrite (to_int_small (remaining status))
    by (unfold Int32.is_int, Int32.INT_MIN, Int32.INT_MAX; lia).
  rewrite (to_int_small (queue_buffer options - remaining status))
    by (unfold Int32.is_int, Int32.INT_MIN, Int32.INT_MAX; lia).
  destruct (past_last status || queue_empty status) eqn:Hextra.
  - rewrite to_int_small
      by (unfold Int32.is_int, Int32.INT_MIN, Int32.INT_MAX; lia).
    split; lia.
  - split; [lia |].
    destruct Hlt as [Hlt | Hz]; [lia |]. lia.
Qed.

(** The enqueue decision with a buffer that fits an [int]: [needed] is
    [queue_buffer - remaining], one more when playback must restart; groups
    are picked and appended while the identifiers appended so far are fewer
    than [needed], and the excess over [needed] stays below the size of the
    last group. *)
Lemma TryEnqueue_buffered (fuel : nat) (options : Options) (w : World C) :
  let status := status_feed w 0%nat in
  let needed := queue_buffer options - remaining status
                + (if past_last status || queue_empty status then 1 else 0) in
  status_ok status ->
  0 < queue_buffer options -> queue_buffer options + 1 <= Int32.INT_MAX ->
  should_add status options = true ->
  picks_well (songs w) ->
  needed <= Z.of_nat fuel ->
  exists gs c',
    pick_many (List.length gs) (songs w) = Some (gs, c') /\
    TryEnqueue fuel options w
    = (Returned tt,
       extend (CallCurrentStatus :: groups_calls gs
                 ++ restart_delta status options)
              (with_songs c' (next_status w))) /\
    (forall k, (k < List.length gs)%nat ->
               total_uris (firstn k gs) < needed) /\
    needed <= total_uris gs /\
    gs <> [] /\
    total_uris gs - needed < Z.of_nat (List.length (last gs [])).
Proof.
  intros status needed Hok Hqb Hmax Hadd Hw Hfuel.
  destruct (needed_init_in_range status options Hok Hqb Hmax Hadd)
    as [Hinit Hpos].
  fold needed in Hinit.
  destruct (enqueue_loop_total fuel (needed_init status options)
              (extend [CallCurrentStatus] (next_status w)) Hw
              (needed_init_int status options))
    as [gs [c' [Hmany [Hrun [_ [Hpre [Htot _]]]]]]].
  { rewrite Hinit. exact Hfuel. }
  rewrite Hinit in Hpre, Htot, Hpos.
  exists gs, c'. split; [exact Hmany |]. split.
  - assert (Hphase :
              enqueue_phase fuel status options
                            (extend [CallCurrentStatus] (next_status w))
              = (Returned tt,
                 extend (CallCurrentStatus :: groups_calls gs)
                        (with_songs c' (next_status w)))).
    { unfold enqueue_phase. rewrite Hadd.
      replace (queue_buffer options =? 0) with false
        by (symmetry; apply Z.eqb_neq; lia).
      cbn [negb]. rewrite Hrun, with_songs_extend, extend_extend.
      reflexivity. }
    rewrite (TryEnqueue_phases fuel options w _ Hphase).
    rewrite extend_extend. reflexivity.
  - split; [exact Hpre |]. split; [exact Htot |].
    apply overshoot_below_last; assumption.
Qed.


(** ** The loop *)

Lemma Idle_bind (A : Type) (k : IdleEventSet.t -> M A)
      (set : IdleEventSet.t) (w : World C) :
  bind (Idle set) k w
  = k (idle_feed w 0%nat) (extend [CallIdle set] (next_idle w)).
Proof. reflexivity. Qed.

Lemma PrintChainLength_run (w : World C) :
  PrintChainLength w
  = (Returned tt, extend [CallPrint (pool_message (songs w))] w).
Proof.
  unfold PrintChainLength, pool_message. cbv zeta.
  destruct (chain_Len (songs w) =? 0)%nat; [reflexivity |].
  destruct (negb (chain_Len (songs w) =? chain_LenURIs (songs w))%nat);
    reflexivity.
Qed.

(** Lines 185-187 as one step. *)
Lemma reload_run (reloader : Loader) (active : bool) (w : World C) :
  (Clear ;; Load reloader ;; PrintChainLength ;; ret active) w
  = match catalog_feed w 0%nat with
    | Some groups =>
        (Returned active,
         extend [CallClear; CallLoad;
                 CallPrint (pool_message (reloaded groups (songs w)))]
                (with_songs (reloaded groups (songs w)) (next_catalog w)))
    | None =>
        (Failed LoadFailure,
         extend [CallClear; CallLoad]
                (with_songs (chain_Clear (songs w)) (next_catalog w)))
    end.
Proof.
  unfold bind, Clear, Load, record. cbn [catalog_feed extend with_songs].
  destruct (catalog_feed w 0%nat) as [groups |].
  - rewrite PrintChainLength_run. unfold ret, reloaded, extend, with_songs,
      next_catalog. cbn. rewrite <- !app_assoc. reflexivity.
  - unfold extend, with_songs, next_catalog. cbn. rewrite <- !app_assoc.
    reflexivity.
Qed.

Lemma Loop_iteration_exit (options : Options) (fuel : nat) (active : bool)
      (w : World C) :
  IdleEventSet.Has (idle_feed w 0%nat) MPD_IDLE_DATABASE = true ->
  exit_on_db_update (tweak options) = true ->
  Loop_iteration options fuel active w
  = (Exited 0,
     extend [CallIdle idle_set; CallPrint DatabaseUpdatedExiting]
            (next_idle w)).
Proof.
  intros Hdb Hexit. unfold Loop_iteration. rewrite Idle_bind, Hdb, Hexit.
  cbn [andb]. unfold bind, emit, exit, record. rewrite extend_extend.
  reflexivity.
Qed.

Lemma Loop_iteration_reload (options : Options) (fuel : nat) (active : bool)
      (w : World C) :
  IdleEventSet.Has (idle_feed w 0%nat) MPD_IDLE_DATABASE = true ->
  exit_on_db_update (tweak options) = false ->
  file_in options = None ->
  Loop_iteration options fuel active w
  = (Clear ;; Load (MPDLoader (ruleset options) (group_by options)) ;;
     PrintChainLength ;; ret active)
      (extend [CallIdle idle_set] (next_idle w)).
Proof.
  intros Hdb Hexit Hfile. unfold Loop_iteration, Reloader.
  rewrite Idle_bind, Hdb, Hexit, Hfile. reflexivity.
Qed.

Lemma Loop_iteration_queue_player (options : Options) (fuel : nat)
      (active : bool) (w : World C) :
  let events := idle_feed w 0%nat in
  IdleEventSet.Has events MPD_IDLE_DATABASE
    && exit_on_db_update (tweak options) = false ->
  IdleEventSet.Has events MPD_IDLE_DATABASE
    && match file_in options with None => true | Some _ => false end
  = false ->
  IdleEventSet.Has events MPD_IDLE_QUEUE
    || IdleEventSet.Has events MPD_IDLE_PLAYER = true ->
  Loop_iteration options fuel active w
  = queue_player_handling options fuel active
      (extend [CallIdle idle_set] (next_idle w)).
Proof.
  intros events Hexit Hreload Hqp. unfold Loop_iteration.
  rewrite Idle_bind. fold events. rewrite Hexit, Hreload, Hqp.
  reflexivity.
Qed.

Lemma Loop_iteration_other (options : Options) (fuel : nat) (active : bool)
      (w : World C) :
  let events := idle_feed w 0%nat in
  IdleEventSet.Has events MPD_IDLE_DATABASE
    && exit_on_db_update (tweak options) = false ->
  IdleEventSet.Has events MPD_IDLE_DATABASE
    && match file_in options with None => true | Some _ => false end
  = false ->
  IdleEventSet.Has events MPD_IDLE_QUEUE
    || IdleEventSet.Has events MPD_IDLE_PLAYER = false ->
  Loop_iteration options fuel active w
  = (Returned active, extend [CallIdle idle_set] (next_idle w)).
Proof.
  intros events Hexit Hreload Hqp. unfold Loop_iteration.
  rewrite Idle_bind. fold events. rewrite Hexit, Hreload, Hqp.
  reflexivity.
Qed.

(** C6.  In an iteration whose event set holds [DatabaseChanged], a
    controller that is configured to exit on a database update ends the
    process there: the iteration, and with it the whole loop, ends as
    [Exited] after the [Idle] and the farewell line, with the chain as it
    was; no reload, suspend check or enqueue step happens in the iteration,
    and no call at all follows it. *)
Theorem Loop_exits_on_database_update
        (rounds : nat) (options : Options) (test_d : TestDelegate)
        (fuel i : nat) (active : bool) (w : World C) :
  keep_going test_d i = true ->
  IdleEventSet.Has (idle_feed w 0%nat) MPD_IDLE_DATABASE = true ->
  exit_on_db_update (tweak options) = true ->
  let w' := extend [CallIdle idle_set; CallPrint DatabaseUpdatedExiting]
                   (next_idle w) in
  Loop_iteration options fuel active w = (Exited 0, w') /\
  Loop_while (S rounds) options test_d fuel i active w = (Exited 0, w') /\
  songs w' = songs w /\
  trace w' = trace w ++ [CallIdle idle_set; CallPrint DatabaseUpdatedExiting].
Proof.
  intros Hgo Hdb Hexit w'.
  pose proof (Loop_iteration_exit options fuel active w Hdb Hexit) as Hit.
  split; [exact Hit |]. split.
  - cbn [Loop_while]. rewrite Hgo. unfold bind. rewrite Hit. reflexivity.
  - split; reflexivity.
Qed.

(** C8.  On startup with [play_on_startup], the controller first reads
    the status.  If the player is not playing it picks one group, appends
    its identifiers and starts playback at the queue length of that status,
    the position right after the former end of the queue; if the player is
    playing it adds nothing and starts nothing.  Either way one ordinary
    enqueue decision follows, and the loop after it. *)
Theorem Loop_startup (options : Options) (test_d : TestDelegate)
        (fuel rounds : nat) (w : World C) :
  play_on_startup (tweak options) = true ->
  let status := status_feed w 0%nat in
  let rest := TryEnqueue fuel options ;;
              Loop_while rounds options test_d fuel 0%nat true in
  (IsPlaying status = true ->
   let w1 := extend [CallCurrentStatus] (next_status w) in
   TryFirst w = (Returned tt, w1) /\
   Loop options test_d fuel rounds w = rest w1) /\
  (IsPlaying status = false ->
   forall g c', chain_Pick (songs w) = Some (g, c') ->
   let w1 := extend (CallCurrentStatus :: CallPick :: map CallAdd g
                       ++ [CallPlayAt (QueueLength status)])
                    (with_songs c' (next_status w)) in
   TryFirst w = (Returned tt, w1) /\
   Loop options test_d fuel rounds w = rest w1).
Proof.
  intros Hstart status rest. split.
  - intros Hplaying w1.
    assert (Hfirst : TryFirst w = (Returned tt, w1)).
    { unfold TryFirst. rewrite CurrentStatus_bind. fold status.
      rewrite Hplaying. reflexivity. }
    split; [exact Hfirst |].
    unfold Loop. rewrite Hstart. unfold bind at 1 2. rewrite Hfirst.
    reflexivity.
  - intros Hstopped g c' E w1.
    assert (Hfirst : TryFirst w = (Returned tt, w1)).
    { unfold TryFirst. rewrite CurrentStatus_bind. fold status.
      rewrite Hstopped.
      rewrite (Pick_bind _ _ _ g c') by exact E.
      rewrite AddAll_bind. unfold PlayAt, emit, record.
      rewrite with_songs_extend, !extend_extend. reflexivity. }
    split; [exact Hfirst |].
    unfold Loop. rewrite Hstart. unfold bind at 1 2. rewrite Hfirst.
    reflexivity.
Qed.

(** C9.  One iteration handles its event set in a fixed order.  The
    database-exit check comes first and ends everything.  Otherwise a
    [DatabaseChanged] event that can be reloaded is handled by the reload
    alone, whatever else the set holds.  The handling of [QueueChanged] and
    [PlayerChanged] (suspend check, enqueue decision) is reached only when
    the iteration neither exited nor reloaded: any call of that handling in
    the trace of the iteration tells so. *)
Theorem Loop_iteration_order (options : Options) (fuel : nat)
        (active : bool) (w : World C) :
  let events := idle_feed w 0%nat in
  let db := IdleEventSet.Has events MPD_IDLE_DATABASE in
  let exits := db && exit_on_db_update (tweak options) in
  let reloads :=
    db && match file_in options with None => true | Some _ => false end in
  let queue_or_player := IdleEventSet.Has events MPD_IDLE_QUEUE
                         || IdleEventSet.Has events MPD_IDLE_PLAYER in
  (exits = true ->
   Loop_iteration options fuel active w
   = (Exited 0,
      extend [CallIdle idle_set; CallPrint DatabaseUpdatedExiting]
             (next_idle w))) /\
  (exits = false -> reloads = true ->
   Loop_iteration options fuel active w
   = match catalog_feed w 0%nat with
     | Some groups =>
         (Returned active,
          extend [CallIdle idle_set; CallClear; CallLoad;
                  CallPrint (pool_message (reloaded groups (songs w)))]
                 (with_songs (reloaded groups (songs w))
                             (next_catalog (next_idle w))))
     | None =>
         (Failed LoadFailure,
          extend [CallIdle idle_set; CallClear; CallLoad]
                 (with_songs (chain_Clear (songs w))
                             (next_catalog (next_idle w))))
     end) /\
  (exits = false -> reloads = false -> queue_or_player = true ->
   Loop_iteration options fuel active w
   = queue_player_handling options fuel active
       (extend [CallIdle idle_set] (next_idle w))) /\
  (forall delta,
      trace (snd (Loop_iteration options fuel active w)) = trace w ++ delta ->
      existsb queue_player_call delta = true ->
      exits = false /\ reloads = false /\ queue_or_player = true).
Proof.
  intros events db exits reloads queue_or_player.
  assert (Hexits : exits = true ->
            Loop_iteration options fuel active w
            = (Exited 0,
               extend [CallIdle idle_set; CallPrint DatabaseUpdatedExiting]
                      (next_idle w))).
  { intros He. apply andb_prop in He. destruct He as [Hdb Hexit].
    apply Loop_iteration_exit; assumption. }
  assert (Hreloads : exits = false -> reloads = true ->
            Loop_iteration options fuel active w
            = match catalog_feed w 0%nat with
              | Some groups =>
                  (Returned active,
                   extend [CallIdle idle_set; CallClear; CallLoad;
                           CallPrint
                             (pool_message (reloaded groups (songs w)))]
                          (with_songs (reloaded groups (songs w))
                                      (next_catalog (next_idle w))))
              | None =>
                  (Failed LoadFailure,
                   extend [CallIdle idle_set; CallClear; CallLoad]
                          (with_songs (chain_Clear (songs w))
                                      (next_catalog (next_idle w))))
              end).
  { intros He Hr. apply andb_prop in Hr. destruct Hr as [Hdb Hfile].
    unfold exits in He. fold db in Hdb. rewrite Hdb in He. cbn [andb] in He.
    destruct (file_in options) eqn:Hf; [discriminate |].
    rewrite (Loop_iteration_reload options fuel active w Hdb He Hf).
    rewrite reload_run. cbn [catalog_feed extend next_idle songs].
    destruct (catalog_feed w 0%nat);
      unfold extend, with_songs, next_catalog, next_idle; cbn;
      rewrite <- !app_assoc; reflexivity. }
  split; [exact Hexits |]. split; [exact Hreloads |]. split.
  - intros He Hr Hqp.
    apply Loop_iteration_queue_player; assumption.
  - intros delta Htrace Hcall.
    destruct exits eqn:He.
    { rewrite (Hexits eq_refl) in Htrace. cbn [snd extend trace] in Htrace.
      apply app_inv_head in Htrace. subst delta. discriminate. }
    destruct reloads eqn:Hr.
    { rewrite (Hreloads eq_refl eq_refl) in Htrace.
      destruct (catalog_feed w 0%nat); cbn [snd extend trace] in Htrace;
        apply app_inv_head in Htrace; subst delta; discriminate. }
    destruct queue_or_player eqn:Hqp; [repeat split |].
    rewrite (Loop_iteration_other options fuel active w He Hr Hqp) in Htrace.
    cbn [snd extend trace] in Htrace.
    apply app_inv_head in Htrace. subst delta. discriminate.
Qed.

(** ** The suspend check *)

Lemma suspend_check_off (options : Options) (active : bool) (w : World C) :
  suspend_timeout (tweak options) = 0 ->
  suspend_check options active w = (Returned active, w).
Proof. intros Hz. unfold suspend_check. rewrite Hz. reflexivity. Qed.

Lemma suspend_check_on (options : Options) (active : bool) (w : World C) :
  suspend_timeout (tweak options) <> 0 ->
  suspend_check options active w
  = if QueueLength (status_feed w 0%nat) =? 0
    then (Returned (QueueLength (status_feed w 1%nat) =? 0),
          extend [CallCurrentStatus;
                  CallSleep (suspend_timeout (tweak options));
                  CallCurrentStatus]
                 (next_status (next_status w)))
    else (Returned active, extend [CallCurrentStatus] (next_status w)).
Proof.
  intros Hnz. unfold suspend_check.
  replace (suspend_timeout (tweak options) =? 0) with false
    by (symmetry; apply Z.eqb_neq; exact Hnz).
  cbn [negb]. rewrite CurrentStatus_bind.
  destruct (QueueLength (status_feed w 0%nat) =? 0); [| reflexivity].
  unfold bind, sleep_f, emit, CurrentStatus, ret, record.
  unfold extend, next_status, feed_next. cbn. rewrite <- !app_assoc.
  reflexivity.
Qed.

Lemma queue_player_handling_on (options : Options) (fuel : nat)
      (active : bool) (w : World C) :
  suspend_timeout (tweak options) <> 0 ->
  queue_player_handling options fuel active w
  = if QueueLength (status_feed w 0%nat) =? 0
    then
      let w2 := extend [CallCurrentStatus;
                        CallSleep (suspend_timeout (tweak options));
                        CallCurrentStatus]
                       (next_status (next_status w)) in
      if QueueLength (status_feed w 1%nat) =? 0
      then (TryEnqueue fuel options ;; ret true) w2
      else (Returned false, w2)
    else
      let w1 := extend [CallCurrentStatus] (next_status w) in
      if active then (TryEnqueue fuel options ;; ret true) w1
      else (Returned false, w1).
Proof.
  intros Hnz. unfold queue_player_handling. unfold bind at 1.
  rewrite (suspend_check_on options active w Hnz).
  destruct (QueueLength (status_feed w 0%nat) =? 0).
  - destruct (QueueLength (status_feed w 1%nat) =? 0); reflexivity.
  - destruct active; reflexivity.
Qed.

(** C1, as the loop has it.  Whenever a [QueueChanged] or [PlayerChanged]
    event is handled with a nonzero [suspend_timeout] and the queue length
    reads 0, the controller sleeps for the timeout and reads the queue
    length again.  If the queue is still empty the controller is active,
    whatever it was before, and runs the enqueue decision in this
    iteration; if the queue became non-empty during the sleep the
    controller becomes inactive and the iteration enqueues nothing.  At an
    event where the queue reads non-empty the flag stays as it is: an
    inactive controller remains inactive and skips the enqueue decision,
    and only an empty queue that is still empty after the sleep makes it
    active again. *)
Theorem suspend_check_on_empty_queue (options : Options) (fuel : nat)
        (active : bool) (w : World C) :
  let events := idle_feed w 0%nat in
  let timeout := suspend_timeout (tweak options) in
  let first := status_feed w 0%nat in
  let second := status_feed w 1%nat in
  IdleEventSet.Has events MPD_IDLE_DATABASE
    && exit_on_db_update (tweak options) = false ->
  IdleEventSet.Has events MPD_IDLE_DATABASE
    && match file_in options with None => true | Some _ => false end
  = false ->
  IdleEventSet.Has events MPD_IDLE_QUEUE
    || IdleEventSet.Has events MPD_IDLE_PLAYER = true ->
  timeout <> 0 ->
  (QueueLength first = 0 ->
   let w2 := extend [CallIdle idle_set; CallCurrentStatus;
                     CallSleep timeout; CallCurrentStatus]
                    (next_status (next_status (next_idle w))) in
   (QueueLength second = 0 ->
    Loop_iteration options fuel active w
    = (TryEnqueue fuel options ;; ret true) w2) /\
   (QueueLength second <> 0 ->
    Loop_iteration options fuel active w = (Returned false, w2))) /\
  (QueueLength first <> 0 ->
   let w1 := extend [CallIdle idle_set; CallCurrentStatus]
                    (next_status (next_idle w)) in
   Loop_iteration options fuel active w
   = if active then (TryEnqueue fuel options ;; ret true) w1
     else (Returned false, w1)).
Proof.
  intros events timeout first second Hexit Hreload Hqp Hnz.
  rewrite (Loop_iteration_queue_player options fuel active w Hexit Hreload
                                       Hqp).
  rewrite (queue_player_handling_on options fuel active _ Hnz).
  change (status_feed (extend [CallIdle idle_set] (next_idle w)) 0%nat)
    with first.
  change (status_feed (extend [CallIdle idle_set] (next_idle w)) 1%nat)
    with second.
  cbv zeta. rewrite !next_status_extend, !extend_extend. cbn [app]. split.
  - intros Hfirst. rewrite Hfirst. cbn [Z.eqb]. split.
    + intros Hsecond. rewrite Hsecond. reflexivity.
    + intros Hsecond.
      replace (QueueLength second =? 0) with false
        by (symmetry; apply Z.eqb_neq; exact Hsecond).
      reflexivity.
  - intros Hfirst.
    replace (QueueLength first =? 0) with false
      by (symmetry; apply Z.eqb_neq; exact Hfirst).
    reflexivity.
Qed.

(** ** No reload, no change of the pool *)

Context {laws : ShuffleChainLaws C}.

Lemma pool_kept_refl (w : World C) : pool_kept w w.
Proof.
  exists []. rewrite app_nil_r. repeat split; intros [].
Qed.

Lemma pool_kept_trans (w1 w2 w3 : World C) :
  pool_kept w1 w2 -> pool_kept w2 w3 -> pool_kept w1 w3.
Proof.
  intros [d1 [Ht1 [Hc1 [Hl1 [Hn1 Hu1]]]]] [d2 [Ht2 [Hc2 [Hl2 [Hn2 Hu2]]]]].
  exists (d1 ++ d2). rewrite Ht2, Ht1, app_assoc.
  split; [reflexivity |]. split; [| split; [| split]].
  - intros Hin. apply in_app_or in Hin. tauto.
  - intros Hin. apply in_app_or in Hin. tauto.
  - congruence.
  - congruence.
Qed.

Lemma pool_kept_extend (cs : list Call) (w : World C) :
  ~ In CallClear cs -> ~ In CallLoad cs -> pool_kept w (extend cs w).
Proof.
  intros Hc Hl. exists cs. repeat split; assumption.
Qed.

Lemma no_reload_ret (A : Type) (a : A) : no_reload (C := C) (ret a).
Proof. intros w. apply pool_kept_refl. Qed.

Lemma no_reload_bind (A B : Type) (m : M A) (k : A -> M B) :
  no_reload (C := C) m -> (forall a, no_reload (k a)) ->
  no_reload (bind m k).
Proof.
  intros Hm Hk w. unfold bind. specialize (Hm w).
  destruct (m w) as [[a | code | e |] w1]; cbn [snd] in *;
    try exact Hm.
  apply (pool_kept_trans w w1); [exact Hm | apply Hk].
Qed.

Lemma no_reload_emit (c : Call) :
  c <> CallClear -> c <> CallLoad -> no_reload (C := C) (emit c).
Proof.
  intros Hc Hl w. apply pool_kept_extend; intros [Heq | []]; congruence.
Qed.

Lemma no_reload_CurrentStatus : no_reload (C := C) CurrentStatus.
Proof.
  intros w. exists [CallCurrentStatus].
  repeat split; intros [Habs | []]; discriminate.
Qed.

Lemma no_reload_Idle (set : IdleEventSet.t) : no_reload (C := C) (Idle set).
Proof.
  intros w. exists [CallIdle set].
  repeat split; intros [Habs | []]; discriminate.
Qed.

Lemma no_reload_exit (A : Type) (code : Z) :
  no_reload (C := C) (exit (A := A) code).
Proof. intros w. apply pool_kept_refl. Qed.

Lemma no_reload_Pick : no_reload Pick.
Proof.
  intros w. unfold Pick.
  destruct (chain_Pick (songs w)) as [[g c'] |] eqn:E; cbn [snd].
  - exists [CallPick]. split; [reflexivity |].
    split; [intros [Habs | []]; discriminate |].
    split; [intros [Habs | []]; discriminate |].
    cbn [songs record extend with_songs]. split.
    + eapply Len_Pick. exact E.
    + eapply LenURIs_Pick. exact E.
  - exists [CallPick]. repeat split; intros [Habs | []]; discriminate.
Qed.

Lemma no_reload_AddAll (uris : list string) :
  no_reload (C := C) (AddAll uris).
Proof.
  intros w. rewrite AddAll_run. cbn [snd]. apply pool_kept_extend;
    intros Hin; apply in_map_iff in Hin; destruct Hin as [u [Habs _]];
    discriminate.
Qed.

Lemma no_reload_enqueue_loop (fuel : nat) :
  forall needed, no_reload (enqueue_loop fuel needed).
Proof.
  induction fuel as [| fuel IH]; intros needed; cbn [enqueue_loop];
    destruct (needed >? 0).
  - intros w. apply pool_kept_refl.
  - apply no_reload_ret.
  - apply no_reload_bind; [apply no_reload_Pick |]. intros picked.
    cbv zeta. apply no_reload_bind; [apply no_reload_AddAll |].
    intros _. apply IH.
  - apply no_reload_ret.
Qed.

Lemma no_reload_TryEnqueue (fuel : nat) (options : Options) :
  no_reload (TryEnqueue fuel options).
Proof.
  unfold TryEnqueue. apply no_reload_bind; [apply no_reload_CurrentStatus |].
  intros status. apply no_reload_bind.
  - unfold enqueue_phase. destruct (should_add status options).
    + destruct (negb (queue_buffer options =? 0)).
      * apply no_reload_enqueue_loop.
      * apply no_reload_bind; [apply no_reload_Pick |].
        intros picked. apply no_reload_AddAll.
    + apply no_reload_ret.
  - intros _. unfold restart_phase.
    destruct (should_add status options
              && (past_last status || queue_empty status)).
    + apply no_reload_bind.
      * apply no_reload_emit; discriminate.
      * intros _. destruct (Single status).
        -- apply no_reload_emit; discriminate.
        -- apply no_reload_ret.
    + apply no_reload_ret.
Qed.

Lemma no_reload_suspend_check (options : Options) (active : bool) :
  no_reload (C := C) (suspend_check options active).
Proof.
  unfold suspend_check.
  destruct (negb (suspend_timeout (tweak options) =? 0)).
  - apply no_reload_bind; [apply no_reload_CurrentStatus |].
    intros status. destruct (QueueLength status =? 0).
    + apply no_reload_bind; [apply no_reload_emit; discriminate |].
      intros _. apply no_reload_bind; [apply no_reload_CurrentStatus |].
      intros status'. apply no_reload_ret.
    + apply no_reload_ret.
  - apply no_reload_ret.
Qed.

(** With a file as the source of the catalog, no iteration reloads. *)
Lemma no_reload_static_file (options : Options) (fuel : nat) (active : bool)
      (file : istream) :
  file_in options = Some file ->
  no_reload (Loop_iteration options fuel active).
Proof.
  intros Hfile. unfold Loop_iteration.
  apply no_reload_bind; [apply no_reload_Idle |]. intros events.
  apply no_reload_bind.
  - destruct (IdleEventSet.Has events MPD_IDLE_DATABASE
              && exit_on_db_update (tweak options)).
    + apply no_reload_bind; [apply no_reload_emit; discriminate |].
      intros _. apply no_reload_exit.
    + apply no_reload_ret.
  - intros _. rewrite Hfile, andb_false_r.
    destruct (IdleEventSet.Has events MPD_IDLE_QUEUE
              || IdleEventSet.Has events MPD_IDLE_PLAYER).
    + apply no_reload_bind; [apply no_reload_suspend_check |].
      intros active'. destruct (negb active').
      * apply no_reload_ret.
      * apply no_reload_bind; [apply no_reload_TryEnqueue |].
        intros _. apply no_reload_ret.
    + apply no_reload_ret.
Qed.

(** C7.  With a file as the source of the catalog, handling a set of
    events that holds [DatabaseChanged] reloads nothing: whatever else the
    iteration does, it calls neither [Clear] nor [Load], and the chain
    counts as many groups and as many identifiers after it as before.
    When the set holds nothing but [DatabaseChanged] and the controller
    does not exit on it, the iteration does nothing at all after [Idle]
    and the chain is the one it was. *)
Theorem static_file_ignores_database_change
        (options : Options) (fuel : nat) (active : bool) (file : istream)
        (w : World C) :
  file_in options = Some file ->
  IdleEventSet.Has (idle_feed w 0%nat) MPD_IDLE_DATABASE = true ->
  let w' := snd (Loop_iteration options fuel active w) in
  (exists delta,
      trace w' = trace w ++ delta /\
      ~ In CallClear delta /\ ~ In CallLoad delta) /\
  chain_Len (songs w') = chain_Len (songs w) /\
  chain_LenURIs (songs w') = chain_LenURIs (songs w) /\
  (exit_on_db_update (tweak options) = false ->
   IdleEventSet.Has (idle_feed w 0%nat) MPD_IDLE_QUEUE
     || IdleEventSet.Has (idle_feed w 0%nat) MPD_IDLE_PLAYER = false ->
   Loop_iteration options fuel active w
   = (Returned active, extend [CallIdle idle_set] (next_idle w)) /\
   songs w' = songs w).
Proof.
  intros Hfile Hdb w'.
  destruct (no_reload_static_file options fuel active file Hfile w)
    as [delta [Htrace [Hclear [Hload [Hlen Huris]]]]].
  fold w' in Htrace, Hlen, Huris.
  split; [exists delta; repeat split; assumption |].
  split; [exact Hlen |]. split; [exact Huris |].
  intros Hexit Hqp.
  assert (Hrun : Loop_iteration options fuel active w
                 = (Returned active,
                    extend [CallIdle idle_set] (next_idle w))).
  { apply Loop_iteration_other.
    - rewrite Hexit. apply andb_false_r.
    - rewrite Hfile. apply andb_false_r.
    - exact Hqp. }
  split; [exact Hrun |]. unfold w'. rewrite Hrun. reflexivity.
Qed.

End MaintainerFacts.

(** ** The two chains keep the contract *)

Lemma SpecChain_laws : ShuffleChainLaws SpecChain.t.
Proof.
  split.
  - intros c g c' E. cbn in E. unfold SpecChain.Pick in E.
    destruct (SpecChain.items c) eqn:Hitems; [discriminate |].
    injection E as _ <-. cbn. unfold SpecChain.Len. cbn.
    rewrite Hitems. reflexivity.
  - intros c g c' E. cbn in E. unfold SpecChain.Pick in E.
    destruct (SpecChain.items c) eqn:Hitems; [discriminate |].
    injection E as _ <-. cbn. unfold SpecChain.LenURIs. cbn.
    rewrite Hitems. reflexivity.
  - intros c. reflexivity.
  - intros c. reflexivity.
Qed.

Lemma TurnChain_LenURIs_app (c1 c2 : TurnChain.t) :
  TurnChain.LenURIs (c1 ++ c2)
  = (TurnChain.LenURIs c1 + TurnChain.LenURIs c2)%nat.
Proof.
  unfold TurnChain.LenURIs.
  induction c1 as [| g c1 IH]; cbn [app fold_right]; [reflexivity |].
  rewrite IH. lia.
Qed.

Lemma TurnChain_laws : ShuffleChainLaws TurnChain.t.
Proof.
  split.
  - intros c g c' E. cbn in E. destruct c as [| g0 rest]; [discriminate |].
    cbn in E. injection E as _ <-. cbn. rewrite length_app. cbn. lia.
  - intros c g c' E. cbn in E. destruct c as [| g0 rest]; [discriminate |].
    cbn in E. injection E as _ <-. cbn [chain_LenURIs TurnChain_ops].
    rewrite TurnChain_LenURIs_app. unfold TurnChain.LenURIs.
    cbn [fold_right]. lia.
  - intros c. reflexivity.
  - intros c. reflexivity.
Qed.

Lemma turn_single_picks (g : list string) (n : nat) :
  nth_pick n ([g] : TurnChain.t) = Some g.
Proof. induction n as [| n IH]; cbn; [reflexivity | exact IH]. Qed.

Lemma one_song_picks_well : picks_well one_song.
Proof.
  intros n. exists ["a"]. split; [apply turn_single_picks |].
  cbn. unfold Int32.INT_MAX. lia.
Qed.


(** ** The claims at work on sample worlds *)

Lemma TryEnqueue_restarts_playback_witness :
  let options := options_with 0 plain_tweak None in
  let w : World TurnChain.t :=
    world_of (fun _ => stopped 3 true) quiet one_song in
  let status := status_feed w 0%nat in
  picks_well (songs w) /\
  needed_init status options <= Z.of_nat 1 /\
  should_add status options = true /\
  past_last status || queue_empty status = true /\
  exists calls w',
    TryEnqueue 1 options w = (Returned tt, w') /\
    trace w' = calls /\
    In (CallPlayAt 3) calls /\ In CallPause calls.
Proof.
  intros options w status.
  assert (Hw : picks_well (songs w)) by exact one_song_picks_well.
  assert (Hfuel : needed_init status options <= Z.of_nat 1)
    by (vm_compute; discriminate).
  assert (Hadd : should_add status options = true) by reflexivity.
  assert (Hrestart : past_last status || queue_empty status = true)
    by reflexivity.
  refine (conj Hw (conj Hfuel (conj Hadd (conj Hrestart _)))).
  destruct (TryEnqueue_restarts_playback 1 options w Hw Hfuel Hadd Hrestart)
    as [gs [c' [calls [_ [Hcalls [Hrun [Hplay Hpause]]]]]]].
  exists calls, (extend calls (with_songs c' (next_status w))).
  split; [exact Hrun |]. split; [reflexivity |]. split.
  - rewrite Hcalls. right. apply in_or_app. right. left. reflexivity.
  - apply Hpause. reflexivity.
Defined.

Lemma TryEnqueue_unbuffered_picks_once_witness :
  let options := options_with 0 plain_tweak None in
  let w : World TurnChain.t :=
    world_of (fun _ => stopped 0 false) quiet one_song in
  queue_buffer options = 0 /\
  should_add (status_feed w 0%nat) options = true /\
  chain_Pick (songs w) = Some (["a"], one_song) /\
  TryEnqueue 0 options w
  = (Returned tt,
     extend [CallCurrentStatus; CallPick; CallAdd "a"; CallPlayAt 0]
            (with_songs one_song (next_status w))).
Proof.
  intros options w.
  refine (conj eq_refl (conj eq_refl (conj eq_refl _))).
  exact (proj1 TryEnqueue_unbuffered_picks_once 0%nat options w ["a"]
               one_song eq_refl eq_refl eq_refl).
Defined.

Lemma Loop_exits_on_database_update_witness :
  let options := options_with 2 exiting_tweak None in
  let w : World TurnChain.t :=
    world_of (fun _ => stopped 0 false)
             (fun _ => IdleEventSet.make [MPD_IDLE_DATABASE; MPD_IDLE_QUEUE])
             one_song in
  keep_going forever 0 = true /\
  IdleEventSet.Has (idle_feed w 0%nat) MPD_IDLE_DATABASE = true /\
  exit_on_db_update (tweak options) = true /\
  Loop_while 3 options forever 5 0 true w
  = (Exited 0,
     extend [CallIdle idle_set; CallPrint DatabaseUpdatedExiting]
            (next_idle w)).
Proof.
  intros options w.
  refine (conj eq_refl (conj eq_refl (conj eq_refl _))).
  exact (proj1 (proj2 (Loop_exits_on_database_update
                         2 options forever 5 0 true w
                         eq_refl eq_refl eq_refl))).
Defined.

Lemma static_file_ignores_database_change_witness :
  let options := options_with 0 plain_tweak (Some (FileStream "songs.txt")) in
  let w : World SpecChain.t :=
    world_of (fun _ => stopped 0 false)
             (fun _ => IdleEventSet.make [MPD_IDLE_DATABASE; MPD_IDLE_QUEUE])
             sample_chain in
  let w' := snd (Loop_iteration options 0 true w) in
  file_in options = Some (FileStream "songs.txt") /\
  IdleEventSet.Has (idle_feed w 0%nat) MPD_IDLE_DATABASE = true /\
  In CallPick (trace w') /\
  chain_Len (songs w') = 2%nat /\
  chain_LenURIs (songs w') = 3%nat.
Proof.
  intros options w w'.
  refine (conj eq_refl (conj eq_refl _)).
  destruct (static_file_ignores_database_change
              (laws := SpecChain_laws) options 0 true
              (FileStream "songs.txt") w eq_refl eq_refl)
    as [_ [Hlen [Huris _]]].
  split; [vm_compute; tauto |]. split.
  - exact Hlen.
  - exact Huris.
Defined.

Lemma Loop_startup_witness :
  let options := options_with 0 starting_tweak None in
  let stopped_world : World TurnChain.t :=
    world_of (fun _ => stopped 2 false) quiet one_song in
  let playing_world : World TurnChain.t :=
    world_of (fun _ => playing_at 0 2) quiet one_song in
  play_on_startup (tweak options) = true /\
  IsPlaying (status_feed stopped_world 0%nat) = false /\
  chain_Pick (songs stopped_world) = Some (["a"], one_song) /\
  TryFirst stopped_world
  = (Returned tt,
     extend [CallCurrentStatus; CallPick; CallAdd "a"; CallPlayAt 2]
            (with_songs one_song (next_status stopped_world))) /\
  IsPlaying (status_feed playing_world 0%nat) = true /\
  TryFirst playing_world
  = (Returned tt, extend [CallCurrentStatus] (next_status playing_world)).
Proof.
  intros options stopped_world playing_world.
  refine (conj eq_refl (conj eq_refl (conj eq_refl (conj _ (conj eq_refl _))))).
  - exact (proj1 (proj2 (Loop_startup options forever 1 0 stopped_world
                                      eq_refl)
                        eq_refl ["a"] one_song eq_refl)).
  - exact (proj1 (proj1 (Loop_startup options forever 1 0 playing_world
                                      eq_refl)
                        eq_refl)).
Defined.

Lemma Loop_iteration_order_witness :
  let options := options_with 0 plain_tweak None in
  let w : World SpecChain.t :=
    world_of (fun _ => stopped 0 false)
             (fun _ => IdleEventSet.make [MPD_IDLE_DATABASE; MPD_IDLE_QUEUE])
             sample_chain in
  IdleEventSet.Has (idle_feed w 0%nat) MPD_IDLE_DATABASE = true /\
  IdleEventSet.Has (idle_feed w 0%nat) MPD_IDLE_QUEUE = true /\
  Loop_iteration options 0 true w
  = (Returned true,
     extend [CallIdle idle_set; CallClear; CallLoad; CallPrint SongPoolIsEmpty]
            (with_songs (reloaded [] (songs w)) (next_catalog (next_idle w)))).
Proof.
  intros options w.
  refine (conj eq_refl (conj eq_refl _)).
  exact (proj1 (proj2 (Loop_iteration_order options 0 true w))
               eq_refl eq_refl).
Defined.

Lemma suspend_check_on_empty_queue_witness :
  let options := options_with 0 suspending_tweak None in
  let events := IdleEventSet.make [MPD_IDLE_QUEUE] in
  let refilled : World TurnChain.t :=
    world_of (script [stopped 0 false] (stopped 2 false))
             (fun _ => events) one_song in
  let drained : World TurnChain.t :=
    world_of (fun _ => stopped 0 false) (fun _ => events) one_song in
  suspend_timeout (tweak options) <> 0 /\
  QueueLength (status_feed refilled 0%nat) = 0 /\
  QueueLength (status_feed refilled 1%nat) <> 0 /\
  fst (Loop_iteration options 0 true refilled) = Returned false /\
  QueueLength (status_feed drained 0%nat) = 0 /\
  QueueLength (status_feed drained 1%nat) = 0 /\
  Loop_iteration options 0 false drained
  = (TryEnqueue 0 options ;; ret true)
      (extend [CallIdle idle_set; CallCurrentStatus; CallSleep 5;
               CallCurrentStatus]
              (next_status (next_status (next_idle drained)))).
Proof.
  intros options events refilled drained.
  assert (Hnz : suspend_timeout (tweak options) <> 0) by discriminate.
  assert (Hsecond : QueueLength (status_feed refilled 1%nat) <> 0)
    by discriminate.
  refine (conj Hnz (conj eq_refl (conj Hsecond (conj _
            (conj eq_refl (conj eq_refl _)))))).
  - rewrite (proj2 (proj1 (suspend_check_on_empty_queue
                             options 0 true refilled
                             eq_refl eq_refl eq_refl Hnz)
                          eq_refl)
                   Hsecond).
    reflexivity.
  - exact (proj1 (proj1 (suspend_check_on_empty_queue
                           options 0 false drained
                           eq_refl eq_refl eq_refl Hnz)
                        eq_refl)
                 eq_refl).
Defined.

(** C1 as first stated has the controller of the first world inactive and
    idle, and the controller of the second one active again.  In the first
    world the queue reads empty before and after the sleep: the controller
    is active and enqueues.  In the second an inactive controller reads a
    queue of four songs: it stays inactive and enqueues nothing. *)
Lemma suspend_check_still_empty_counterexample :
  let options := options_with 0 suspending_tweak None in
  let drained : World TurnChain.t :=
    world_of (fun _ => stopped 0 false)
             (fun _ => IdleEventSet.make [MPD_IDLE_QUEUE]) one_song in
  let filled : World TurnChain.t :=
    world_of (fun _ => stopped 4 false)
             (fun _ => IdleEventSet.make [MPD_IDLE_PLAYER]) one_song in
  (suspend_timeout (tweak options) = 5 /\
   QueueLength (status_feed drained 0%nat) = 0 /\
   QueueLength (status_feed drained 1%nat) = 0 /\
   fst (Loop_iteration options 0 true drained) = Returned true /\
   trace (snd (Loop_iteration options 0 true drained))
   = [CallIdle idle_set; CallCurrentStatus; CallSleep 5; CallCurrentStatus;
      CallCurrentStatus; CallPick; CallAdd "a"; CallPlayAt 0]) /\
  (QueueLength (status_feed filled 0%nat) = 4 /\
   fst (Loop_iteration options 0 false filled) = Returned false /\
   trace (snd (Loop_iteration options 0 false filled))
   = [CallIdle idle_set; CallCurrentStatus]).
Proof. vm_compute. repeat split. Qed.



(** ** Beyond the range of [int] *)

(** C3, where the code leaves it.  With [queue_buffer] = 2147483648, an
    empty queue and no current song, [should_add] holds and the decision
    asks for 2147483649 identifiers; the conversion of line 81 turns the
    buffer into -2147483648, [needed] is -2147483647, and the loop of
    lines 89-93 is not entered: there is no [Pick] and no [Add], whatever
    the fuel, and [PlayAt 0] is sent for a queue that is still empty. *)
Theorem TryEnqueue_buffer_beyond_int :
  let options := options_with 2147483648 plain_tweak None in
  let status := stopped 0 false in
  let w : World TurnChain.t := world_of (fun _ => status) quiet one_song in
  should_add status options = true /\
  past_last status = true /\ queue_empty status = true /\
  queue_buffer options - remaining status + 1 = 2147483649 /\
  needed_init status options = -2147483647 /\
  forall fuel,
    TryEnqueue fuel options w
    = (Returned tt,
       extend [CallCurrentStatus; CallPlayAt 0] (next_status w)).
Proof.
  intros options status w.
  repeat (split; [reflexivity |]).
  intros fuel. destruct fuel; reflexivity.
Qed.

(** C4, where the code leaves it.  With [queue_buffer] = 2147483648, a
    status that reports an empty queue and no current song, and any chain,
    [should_add] holds together with [past_last] and [queue_empty], so the
    player is to be started at the first newly appended identifier.  The
    conversion of line 81 makes [needed] negative, nothing is picked and
    nothing is appended, whatever the fuel, and lines 101-109 still send
    [PlayAt 0], and [Pause] when single mode is on: position 0 is the
    index of no appended identifier, against the comment of lines 102-104
    ("the length will be the position of the song we just added"). *)
Theorem TryEnqueue_restarts_without_appending
        (C : Type) (ops : ShuffleChainOps C) (c : C)
        (idles : Feed IdleEventSet.t) (single : bool) (fuel : nat) :
  let options := options_with 2147483648 plain_tweak None in
  let status := stopped 0 single in
  let w : World C := world_of (fun _ => status) idles c in
  should_add status options = true /\
  past_last status || queue_empty status = true /\
  TryEnqueue fuel options w
  = (Returned tt,
     extend (CallCurrentStatus :: CallPlayAt (QueueLength status)
               :: (if single then [CallPause] else []))
            (next_status w)) /\
  (forall uri, ~ In (CallAdd uri) (trace (snd (TryEnqueue fuel options w)))) /\
  ~ In CallPick (trace (snd (TryEnqueue fuel options w))) /\
  songs (snd (TryEnqueue fuel options w)) = c.
Proof.
  intros options status w.
  assert (Hrun : TryEnqueue fuel options w
                 = (Returned tt,
                    extend (CallCurrentStatus :: CallPlayAt (QueueLength status)
                              :: (if single then [CallPause] else []))
                           (next_status w))).
  { destruct fuel, single; reflexivity. }
  split; [reflexivity |]. split; [reflexivity |].
  split; [exact Hrun |]. rewrite Hrun. cbn [snd trace extend]. split.
  - intros uri Hin. destruct single; cbn in Hin;
      repeat (destruct Hin as [Habs | Hin]; [discriminate |]); exact Hin.
  - split; [| reflexivity].
    intros Hin. destruct single; cbn in Hin;
      repeat (destruct Hin as [Habs | Hin]; [discriminate |]); exact Hin.
Qed.

(** The same decision with a buffer an [int] holds: scenario B (buffer 3,
    current song at 0 of a queue of 1) appends three identifiers and sends
    no [PlayAt]; scenario C (buffer 2, no current song) appends three and
    plays at the former queue length. *)
Example TryEnqueue_scenarios :
  let at_first : World SpecChain.t :=
    world_of (fun _ => playing_at 0 1) quiet sample_chain in
  let past_end : World SpecChain.t :=
    world_of (fun _ => stopped 4 true) quiet sample_chain in
  trace (snd (TryEnqueue 5 (options_with 3 plain_tweak None) at_first))
  = [CallCurrentStatus; CallPick; CallAdd "a";
     CallPick; CallAdd "b"; CallAdd "c"] /\
  trace (snd (TryEnqueue 5 (options_with 2 plain_tweak None) past_end))
  = [CallCurrentStatus; CallPick; CallAdd "a";
     CallPick; CallAdd "b"; CallAdd "c"; CallPlayAt 4; CallPause].
Proof. split; reflexivity. Qed.

Lemma TryEnqueue_buffered_witness :
  let options := options_with 2 plain_tweak None in
  let w : World TurnChain.t :=
    world_of (fun _ => stopped 4 false) quiet one_song in
  let status := status_feed w 0%nat in
  status_ok status /\
  0 < queue_buffer options /\ queue_buffer options + 1 <= Int32.INT_MAX /\
  should_add status options = true /\
  picks_well (songs w) /\
  exists gs c',
    TryEnqueue 3 options w
    = (Returned tt,
       extend (CallCurrentStatus :: groups_calls gs
                 ++ restart_delta status options)
              (with_songs c' (next_status w))) /\
    3 <= total_uris gs /\
    total_uris gs - 3 < Z.of_nat (List.length (last gs [])).
Proof.
  intros options w status.
  assert (Hok : status_ok status).
  { split; [vm_compute; split; discriminate | intros pos Hpos].
    discriminate. }
  assert (Hqb : 0 < queue_buffer options) by reflexivity.
  assert (Hmax : queue_buffer options + 1 <= Int32.INT_MAX)
    by (vm_compute; discriminate).
  assert (Hadd : should_add status options = true) by reflexivity.
  assert (Hfuel : queue_buffer options - remaining status
                  + (if past_last status || queue_empty status
                     then 1 else 0) <= Z.of_nat 3)
    by (vm_compute; discriminate).
  refine (conj Hok (conj Hqb (conj Hmax (conj Hadd
            (conj one_song_picks_well _))))).
  destruct (TryEnqueue_buffered 3 options w Hok Hqb Hmax Hadd
                                one_song_picks_well Hfuel)
    as [gs [c' [_ [Hrun [_ [Htot [_ Hover]]]]]]].
  exists gs, c'. split; [exact Hrun |]. split; assumption.
Defined.

(** * More of the code *)

(** ** [MPDHost]: splitting at the first ["@"] *)

Lemma take_drop (n : nat) (s : string) :
  (StringView.take n s ++ StringView.drop n s)%string = s.
Proof.
  revert s. induction n as [| n IH]; intros s; [reflexivity |].
  destruct s as [| c rest]; [reflexivity |]. cbn. rewrite IH. reflexivity.
Qed.

Lemma take_all (s : string) : StringView.take (String.length s) s = s.
Proof.
  induction s as [| c rest IH]; [reflexivity |]. cbn. rewrite IH.
  reflexivity.
Qed.

Lemma take_append (a b : string) :
  StringView.take (String.length a) (a ++ b)%string = a.
Proof.
  induction a as [| c rest IH]; cbn.
  - destruct b; reflexivity.
  - rewrite IH. reflexivity.
Qed.

Lemma drop_append (a b : string) :
  StringView.drop (String.length a) (a ++ b)%string = b.
Proof. induction a as [| c rest IH]; cbn; [reflexivity | exact IH]. Qed.

Lemma length_take (n : nat) (s : string) :
  (n <= String.length s)%nat -> String.length (StringView.take n s) = n.
Proof.
  revert s. induction n as [| n IH]; intros s Hn; [reflexivity |].
  destruct s as [| c rest]; cbn in *; [lia |]. rewrite IH by lia.
  reflexivity.
Qed.

Lemma take_beyond (n : nat) (s : string) :
  (String.length s <= n)%nat -> StringView.take n s = s.
Proof.
  revert s. induction n as [| n IH]; intros s Hn.
  - destruct s; [reflexivity | cbn in Hn; lia].
  - destruct s as [| c rest]; [reflexivity |]. cbn in *.
    rewrite IH by lia. reflexivity.
Qed.

Lemma length_drop (n : nat) (s : string) :
  String.length (StringView.drop n s) = (String.length s - n)%nat.
Proof.
  revert s. induction n as [| n IH]; intros s.
  - cbn. lia.
  - destruct s as [| c rest]; [reflexivity |]. cbn. apply IH.
Qed.

Lemma length_append (a b : string) :
  String.length (a ++ b)%string = (String.length a + String.length b)%nat.
Proof. induction a as [| c rest IH]; cbn; [reflexivity | rewrite IH; lia]. Qed.

Lemma prefix_at (c : Ascii.ascii) (rest : string) :
  String.prefix "@" (String c rest)
  = if Ascii.ascii_dec "@"%char c then true else false.
Proof.
  cbn [String.prefix]. destruct (Ascii.ascii_dec "@"%char c); [| reflexivity].
  destruct rest; reflexivity.
Qed.

Lemma find_from_shift (s : string) (pos : nat) :
  StringView.find_from "@" s pos
  = match StringView.find_from "@" s 0 with
    | Some i => Some (pos + i)%nat
    | None => None
    end.
Proof.
  revert pos. induction s as [| c rest IH]; intros pos.
  - reflexivity.
  - cbn [StringView.find_from]. rewrite prefix_at.
    destruct (Ascii.ascii_dec "@"%char c).
    + rewrite Nat.add_0_r. reflexivity.
    + rewrite (IH (S pos)), (IH 1%nat).
      destruct (StringView.find_from "@" rest 0); [| reflexivity].
      f_equal. lia.
Qed.

(** Where [find] reports the first ["@"], the input is the text before
    it, the ["@"], and the text after it; the text before holds none. *)
Lemma find_at_splits (s : string) (idx : nat) :
  StringView.find "@" s = Some idx ->
  (idx < String.length s)%nat /\
  s = (StringView.take idx s ++ "@" ++ StringView.drop (S idx) s)%string /\
  no_at (StringView.take idx s).
Proof.
  unfold no_at, StringView.find. revert idx.
  induction s as [| c rest IH]; intros idx Hfind.
  - discriminate.
  - cbn [StringView.find_from] in Hfind. rewrite prefix_at in Hfind.
    destruct (Ascii.ascii_dec "@"%char c) as [<- | Hne].
    + injection Hfind as <-. cbn. repeat split; lia.
    + rewrite find_from_shift in Hfind.
      destruct (StringView.find_from "@" rest 0) as [i |] eqn:Hrest;
        [| discriminate].
      injection Hfind as <-. destruct (IH i eq_refl) as [Hlt [Heq Hnone]].
      cbn [Nat.add StringView.take StringView.drop String.length].
      split; [lia |]. split.
      * cbn. f_equal. exact Heq.
      * cbn [StringView.find_from]. rewrite prefix_at.
        destruct (Ascii.ascii_dec "@"%char c); [contradiction |].
        rewrite find_from_shift, Hnone. reflexivity.
Qed.

Lemma find_at_joined (pw h : string) :
  no_at pw ->
  StringView.find "@" (pw ++ "@" ++ h)%string = Some (String.length pw).
Proof.
  unfold no_at, StringView.find.
  induction pw as [| c rest IH]; intros Hnone.
  - cbn. destruct h; reflexivity.
  - cbn [append StringView.find_from String.length] in *.
    rewrite prefix_at in *.
    destruct (Ascii.ascii_dec "@"%char c); [discriminate |].
    rewrite find_from_shift in Hnone. rewrite find_from_shift.
    destruct (StringView.find_from "@" rest 0) eqn:Hrest; [discriminate |].
    rewrite (IH eq_refl). reflexivity.
Qed.

(** The constructor never throws.  With an ["@"] in the input, the
    password is the text before the first one, without any ["@"], the host
    is all the text after it, and the three pieces make up the input; with
    none, there is no password and the host is the input. *)
Theorem MPDHost_make_splits (input : string) :
  exists mpd_host,
    MPDHost.make input = Some mpd_host /\
    match MPDHost.password mpd_host with
    | Some pw =>
        input = (pw ++ "@" ++ MPDHost.host mpd_host)%string /\ no_at pw
    | None => MPDHost.host mpd_host = input /\ no_at input
    end.
Proof.
  unfold MPDHost.make.
  destruct (StringView.find "@" input) as [idx |] eqn:Hfind.
  - destruct (find_at_splits input idx Hfind) as [Hlt [Heq Hnone]].
    unfold StringView.substr.
    replace (String.length input <? 0)%nat with false
      by (symmetry; apply Nat.ltb_ge; lia).
    replace (String.length input <? idx + 1)%nat with false
      by (symmetry; apply Nat.ltb_ge; lia).
    eexists. split; [reflexivity |]. cbn [MPDHost.password MPDHost.host].
    rewrite Nat.sub_0_r, Nat.min_l by lia. cbn [StringView.drop].
    replace (Nat.min (String.length input - idx)
                     (String.length input - (idx + 1)))
      with (String.length input - (idx + 1))%nat by lia.
    replace (idx + 1)%nat with (S idx) by lia.
    rewrite (take_beyond (String.length input - S idx)
                         (StringView.drop (S idx) input))
      by (rewrite length_drop; lia).
    split; [exact Heq | exact Hnone].
  - eexists. split; [reflexivity |]. split; [reflexivity | exact Hfind].
Qed.

Lemma drop_append_cons (a b : string) (c : ascii) :
  StringView.drop (S (String.length a)) (a ++ String c b)%string = b.
Proof. induction a as [| c0 rest IH]; cbn; [reflexivity | exact IH]. Qed.

(** The other way round: a password without ["@"], an ["@"] and a host
    (which may hold further ["@"]) are told apart again. *)
Theorem MPDHost_make_joined (pw h : string) :
  no_at pw ->
  MPDHost.make (pw ++ "@" ++ h)%string
  = Some {| MPDHost.host := h; MPDHost.password := Some pw |}.
Proof.
  intros Hnone. unfold MPDHost.make. rewrite (find_at_joined pw h Hnone).
  unfold StringView.substr. rewrite length_append. cbn [append String.length].
  replace (String.length pw + S (String.length h) <? 0)%nat with false
    by (symmetry; apply Nat.ltb_ge; lia).
  replace (String.length pw + S (String.length h) <? String.length pw + 1)%nat
    with false by (symmetry; apply Nat.ltb_ge; lia).
  replace (Nat.min (String.length pw)
                   (String.length pw + S (String.length h) - 0))
    with (String.length pw) by lia.
  replace (Nat.min (String.length pw + S (String.length h) - String.length pw)
                   (String.length pw + S (String.length h)
                    - (String.length pw + 1)))
    with (String.length h) by lia.
  cbn [StringView.drop]. rewrite (take_append pw (String "@" h)).
  replace (String.length pw + 1)%nat with (S (String.length pw)) by lia.
  rewrite drop_append_cons, take_all. reflexivity.
Qed.

Lemma MPDHost_make_joined_witness :
  no_at "secret" /\
  MPDHost.make "secret@music.local@home"
  = Some {| MPDHost.host := "music.local@home";
            MPDHost.password := Some "secret" |}.
Proof.
  assert (Hnone : no_at "secret") by reflexivity.
  split; [exact Hnone |].
  exact (MPDHost_make_joined "secret" "music.local@home" Hnone).
Defined.

(** ** [PromptPassword] *)

Import Connection.

Lemma accepted_at_next (n : nat) (e e' : Env) :
  accepted_at (S n) e ->
  password_answers e' = feed_next (password_answers e) ->
  accepted_at n e'.
Proof.
  intros [Hrej Hacc] Hfeed. unfold accepted_at. rewrite Hfeed. split.
  - intros k Hk. apply (Hrej (S k)). lia.
  - exact Hacc.
Qed.

Lemma PromptPassword_accepts (n : nat) :
  forall (fuel : nat) (e : Env),
    accepted_at n e -> (n < fuel)%nat ->
    exists e',
      PromptPassword fuel e = Some e' /\
      steps e' = steps e ++ rejected_steps (typed e) n
                   ++ [Getpass; ApplyPassword (typed e n)] /\
      command_answers e' = command_answers e /\
      dialer e' = dialer e /\
      (forall k, typed e' k = typed e (S n + k)%nat) /\
      (forall k, password_answers e' k = password_answers e (S n + k)%nat).
Proof.
  induction n as [| n IH]; intros fuel e Hacc Hfuel;
    (destruct fuel as [| fuel]; [lia |]); cbn [PromptPassword getpass_f
      apply_password typed password_answers steps].
  - destruct Hacc as [_ Hacc]. rewrite Hacc. eexists.
    split; [reflexivity |]. cbn. rewrite <- app_assoc.
    repeat split; reflexivity.
  - assert (Hrej : password_answers e 0%nat = kRejected)
      by (apply (proj1 Hacc); lia).
    rewrite Hrej.
    match goal with
    | |- exists e', PromptPassword fuel ?e1 = _ /\ _ =>
        destruct (IH fuel e1) as [e' [Hrun [Hsteps [Hcmd [Hdial [Hty Hpw]]]]]]
    end.
    + apply (accepted_at_next n e); [exact Hacc | reflexivity].
    + lia.
    + exists e'. split; [exact Hrun |]. cbn in Hsteps, Hcmd, Hdial, Hty, Hpw.
      split; [| repeat split; assumption].
      rewrite Hsteps. cbn [rejected_steps]. unfold feed_next.
      rewrite <- !app_assoc. reflexivity.
Qed.

Lemma PromptPassword_rejected_prefix (fuel : nat) :
  forall e : Env,
    (forall k, (k < fuel)%nat -> password_answers e k = kRejected) ->
    PromptPassword fuel e = None.
Proof.
  induction fuel as [| fuel IH]; intros e Hrej; [reflexivity |].
  cbn [PromptPassword getpass_f apply_password password_answers].
  rewrite (Hrej 0%nat) by lia. apply IH. intros k Hk. cbn.
  apply (Hrej (S k)). lia.
Qed.

Lemma first_accepted (answers : Feed PasswordStatus) (fuel : nat) :
  (forall k, (k < fuel)%nat -> answers k = kRejected) \/
  (exists n, (n < fuel)%nat /\ answers n = kAccepted /\
             forall k, (k < n)%nat -> answers k = kRejected).
Proof.
  induction fuel as [| fuel IH].
  - left. intros k Hk. lia.
  - destruct IH as [Hrej | [n [Hn [Hacc Hbefore]]]].
    + destruct (answers fuel) eqn:Hlast.
      * right. exists fuel. split; [lia |]. split; assumption.
      * left. intros k Hk.
        destruct (Nat.eq_dec k fuel) as [-> | Hne]; [exact Hlast |].
        apply Hrej. lia.
    + right. exists n. split; [lia |]. split; assumption.
Qed.

(** The prompt goes on exactly until a password is accepted.  When it
    returns within the turns it is given, some number [n] of passwords were
    rejected, each answered with "incorrect password.", and the next one
    was accepted and ended it; when it does not, every password tried was
    rejected. *)
Theorem PromptPassword_stops_at_first_accepted (fuel : nat) (e : Env) :
  match PromptPassword fuel e with
  | Some e' =>
      exists n,
        (n < fuel)%nat /\ accepted_at n e /\
        steps e' = steps e ++ rejected_steps (typed e) n
                     ++ [Getpass; ApplyPassword (typed e n)] /\
        command_answers e' = command_answers e
  | None => forall k, (k < fuel)%nat -> password_answers e k = kRejected
  end.
Proof.
  destruct (first_accepted (password_answers e) fuel)
    as [Hrej | [n [Hn [Hacc Hbefore]]]].
  - rewrite (PromptPassword_rejected_prefix fuel e Hrej). exact Hrej.
  - assert (Hat : accepted_at n e) by (split; assumption).
    destruct (PromptPassword_accepts n fuel e Hat Hn)
      as [e' [Hrun [Hsteps [Hcmd _]]]].
    rewrite Hrun. exists n. repeat split; assumption.
Qed.

(** While every password is rejected the prompt does not end. *)
Theorem PromptPassword_goes_on_while_rejected (fuel : nat) :
  forall e : Env,
    (forall k, password_answers e k = kRejected) ->
    PromptPassword fuel e = None.
Proof.
  induction fuel as [| fuel IH]; intros e Hrej; [reflexivity |].
  cbn [PromptPassword getpass_f apply_password password_answers].
  rewrite (Hrej 0%nat). apply IH. intros k. cbn. apply (Hrej (S k)).
Qed.

Lemma PromptPassword_goes_on_while_rejected_witness :
  let e := env_of None None (fun _ => None) (fun _ => kRejected)
                  (fun _ => {| authorized := true; missing := [] |})
                  (fun _ => "guess") in
  (forall k, password_answers e k = kRejected) /\
  PromptPassword 100 e = None.
Proof.
  intros e.
  assert (Hrej : forall k, password_answers e k = kRejected)
    by (intros k; reflexivity).
  split; [exact Hrej |].
  exact (PromptPassword_goes_on_while_rejected 100 e Hrej).
Defined.

(** ** [Connect] *)

Lemma PromptPassword_frame (fuel : nat) :
  forall e e', PromptPassword fuel e = Some e' ->
               command_answers e' = command_answers e /\
               exists new, steps e' = steps e ++ new.
Proof.
  induction fuel as [| fuel IH]; intros e e' Hrun; [discriminate |].
  cbn [PromptPassword getpass_f apply_password password_answers] in Hrun.
  destruct (password_answers e 0%nat).
  - injection Hrun as <-. split; [reflexivity |]. cbn.
    eexists. rewrite <- app_assoc. reflexivity.
  - destruct (IH _ _ Hrun) as [Hcmd [new Hsteps]]. split; [exact Hcmd |].
    cbn in Hsteps. eexists. rewrite Hsteps, <- !app_assoc. reflexivity.
Qed.

Section ConnectFacts.

Variable atoi : string -> Z.
Variables (options : Endpoint) (fuel : nat) (e : Env) (mpd_host : MPDHost.t).

Hypothesis Hmake : MPDHost.make (mpd_host_raw options e) = Some mpd_host.

Let addr : Address :=
  {| host := MPDHost.host mpd_host; port := mpd_port atoi options e |}.

Lemma Connect_dial_failed (err : string) :
  dialer e addr = Some err ->
  Connect atoi options fuel e
  = (Died (FailedToConnect err), did [Dial addr] e).
Proof.
  intros Hdial. unfold Connect. fold (mpd_host_raw options e).
  rewrite Hmake. fold (mpd_port atoi options e). fold addr.
  conn_simpl. rewrite Hdial. reflexivity.
Qed.

Lemma Connect_with_password (pw : string) :
  MPDHost.password mpd_host = Some pw ->
  dialer e addr = None ->
  fst (Connect atoi options fuel e) = verdict (command_answers e 0%nat) /\
  steps (snd (Connect atoi options fuel e))
  = steps e ++ [Dial addr; ApplyPassword pw; CheckCommands kRequiredCommands]
      ++ refusal_steps (command_answers e 0%nat).
Proof.
  intros Hpw Hdial. unfold Connect. fold (mpd_host_raw options e).
  rewrite Hmake. fold (mpd_port atoi options e). fold addr.
  conn_simpl. rewrite Hdial, Hpw. conn_simpl.
  unfold verdict, refusal_steps.
  destruct (authorized (command_answers e 0%nat)); conn_simpl;
    rewrite <- ?app_assoc; split; reflexivity.
Qed.

Lemma Connect_allowed_at_once :
  MPDHost.password mpd_host = None ->
  dialer e addr = None ->
  authorized (command_answers e 0%nat) = true ->
  fst (Connect atoi options fuel e) = Connected /\
  steps (snd (Connect atoi options fuel e))
  = steps e ++ [Dial addr; CheckCommands kRequiredCommands].
Proof.
  intros Hpw Hdial Hauth. unfold Connect. fold (mpd_host_raw options e).
  rewrite Hmake. fold (mpd_port atoi options e). fold addr.
  conn_simpl. rewrite Hdial, Hpw. conn_simpl. rewrite Hauth. conn_simpl.
  rewrite ?Hauth. conn_simpl. rewrite <- ?app_assoc. split; reflexivity.
Qed.

(** After the first [CheckCommands] refused. *)
Let refused : Env := snd (check_commands kRequiredCommands (did [Dial addr] e)).

Lemma Connect_prompting :
  MPDHost.password mpd_host = None ->
  dialer e addr = None ->
  authorized (command_answers e 0%nat) = false ->
  Connect atoi options fuel e
  = match PromptPassword fuel refused with
    | Some e' =>
        (verdict (command_answers e' 0%nat),
         did (refusal_steps (command_answers e' 0%nat))
             (snd (check_commands kRequiredCommands e')))
    | None => (Prompting, refused)
    end.
Proof.
  intros Hpw Hdial Hauth. unfold Connect. fold (mpd_host_raw options e).
  rewrite Hmake. fold (mpd_port atoi options e). fold addr.
  unfold refused. conn_simpl. rewrite Hdial, Hpw. conn_simpl.
  rewrite Hauth. conn_simpl.
  match goal with
  | |- context [PromptPassword fuel ?e1] =>
      destruct (PromptPassword fuel e1) as [e' |]; [| reflexivity]
  end.
  unfold verdict, refusal_steps.
  destruct (authorized (command_answers e' 0%nat)); conn_simpl.
  - rewrite app_nil_r. reflexivity.
  - reflexivity.
Qed.

End ConnectFacts.

Lemma MPDHost_make_total (input : string) :
  exists mpd_host, MPDHost.make input = Some mpd_host.
Proof.
  unfold MPDHost.make.
  destruct (StringView.find "@" input) as [idx |] eqn:Hfind.
  - destruct (find_at_splits input idx Hfind) as [Hlt _].
    unfold StringView.substr.
    replace (String.length input <? 0)%nat with false
      by (symmetry; apply Nat.ltb_ge; lia).
    replace (String.length input <? idx + 1)%nat with false
      by (symmetry; apply Nat.ltb_ge; lia).
    eexists. reflexivity.
  - eexists. reflexivity.
Qed.

(** [Connect] never throws, and the first thing it does is to dial: the
    host is what [MPDHost] makes of the host string (the command line's,
    else [MPD_HOST], else "localhost"), the port is the command line's
    unless that is 0, else what [atoi] makes of [MPD_PORT] taken as
    unsigned, else 6600.  When the dialer fails, [Connect] dies of it
    without a word to the server or the user. *)
Theorem Connect_dials_first (atoi : string -> Z) (options : Endpoint)
        (fuel : nat) (e : Env) :
  exists mpd_host,
    MPDHost.make (mpd_host_raw options e) = Some mpd_host /\
    let addr := {| host := MPDHost.host mpd_host;
                   port := mpd_port atoi options e |} in
    fst (Connect atoi options fuel e) <> Threw /\
    (exists rest,
        steps (snd (Connect atoi options fuel e))
        = steps e ++ Dial addr :: rest) /\
    (forall err, dialer e addr = Some err ->
                 Connect atoi options fuel e
                 = (Died (FailedToConnect err), did [Dial addr] e)).
Proof.
  destruct (MPDHost_make_total (mpd_host_raw options e))
    as [mpd_host Hmake].
  exists mpd_host. split; [exact Hmake |]. intros addr.
  destruct (dialer e addr) as [err |] eqn:Hdial.
  - rewrite (Connect_dial_failed atoi options fuel e mpd_host Hmake err Hdial).
    split; [discriminate |]. split.
    + exists []. reflexivity.
    + intros err' Herr. injection Herr as <-. reflexivity.
  - split; [| split; [| discriminate]].
    + destruct (MPDHost.password mpd_host) as [pw |] eqn:Hpw.
      * rewrite (proj1 (Connect_with_password atoi options fuel e mpd_host
                          Hmake pw Hpw Hdial)).
        unfold verdict.
        destruct (authorized (command_answers e 0%nat)); discriminate.
      * destruct (authorized (command_answers e 0%nat)) eqn:Hauth.
        -- rewrite (proj1 (Connect_allowed_at_once atoi options fuel e
                             mpd_host Hmake Hpw Hdial Hauth)).
           discriminate.
        -- rewrite (Connect_prompting atoi options fuel e mpd_host Hmake
                                      Hpw Hdial Hauth).
           destruct (PromptPassword fuel _) as [e' |]; [| discriminate].
           unfold verdict. cbn [fst].
           destruct (authorized (command_answers e' 0%nat)); discriminate.
    + destruct (MPDHost.password mpd_host) as [pw |] eqn:Hpw.
      * rewrite (proj2 (Connect_with_password atoi options fuel e mpd_host
                          Hmake pw Hpw Hdial)).
        eexists. reflexivity.
      * destruct (authorized (command_answers e 0%nat)) eqn:Hauth.
        -- rewrite (proj2 (Connect_allowed_at_once atoi options fuel e
                             mpd_host Hmake Hpw Hdial Hauth)).
           eexists. reflexivity.
        -- rewrite (Connect_prompting atoi options fuel e mpd_host Hmake
                                      Hpw Hdial Hauth).
           destruct (PromptPassword fuel _) as [e' |] eqn:Hprompt.
           ++ destruct (PromptPassword_frame fuel _ _ Hprompt)
                as [_ [new Hsteps]].
              conn_simpl. rewrite Hsteps. conn_simpl.
              eexists. rewrite <- !app_assoc. reflexivity.
           ++ conn_simpl. eexists. rewrite <- !app_assoc. reflexivity.
Qed.

(** [Connect] hands out a connection only when the server allowed every
    required command at the last check: the last step is that check, and
    it is the first check, or the second one after the first refused and
    the host string held no password. *)
Theorem Connect_connects_only_when_allowed (atoi : string -> Z)
        (options : Endpoint) (fuel : nat) (e : Env) :
  fst (Connect atoi options fuel e) = Connected ->
  (exists before,
      steps (snd (Connect atoi options fuel e))
      = before ++ [CheckCommands kRequiredCommands]) /\
  (authorized (command_answers e 0%nat) = true \/
   (authorized (command_answers e 0%nat) = false /\
    authorized (command_answers e 1%nat) = true /\
    exists mpd_host,
      MPDHost.make (mpd_host_raw options e) = Some mpd_host /\
      MPDHost.password mpd_host = None)).
Proof.
  destruct (MPDHost_make_total (mpd_host_raw options e))
    as [mpd_host Hmake].
  pose (addr := {| host := MPDHost.host mpd_host;
                   port := mpd_port atoi options e |}).
  destruct (dialer e addr) as [err |] eqn:Hdial.
  { rewrite (Connect_dial_failed atoi options fuel e mpd_host Hmake err Hdial).
    discriminate. }
  destruct (MPDHost.password mpd_host) as [pw |] eqn:Hpw.
  - destruct (Connect_with_password atoi options fuel e mpd_host Hmake pw
                                    Hpw Hdial) as [Hfst Hsteps].
    rewrite Hfst, Hsteps. unfold verdict, refusal_steps.
    destruct (authorized (command_answers e 0%nat)); [| discriminate].
    intros _. split; [| left; reflexivity].
    exists (steps e ++ [Dial addr; ApplyPassword pw]).
    rewrite app_nil_r, <- app_assoc. reflexivity.
  - destruct (authorized (command_answers e 0%nat)) eqn:Hauth.
    + destruct (Connect_allowed_at_once atoi options fuel e mpd_host Hmake
                                        Hpw Hdial Hauth) as [_ Hsteps].
      rewrite Hsteps. intros _. split; [| left; reflexivity].
      exists (steps e ++ [Dial addr]). rewrite <- app_assoc. reflexivity.
    + rewrite (Connect_prompting atoi options fuel e mpd_host Hmake Hpw
                                 Hdial Hauth).
      destruct (PromptPassword fuel _) as [e' |] eqn:Hprompt;
        [| discriminate].
      destruct (PromptPassword_frame fuel _ _ Hprompt) as [Hcmd _].
      unfold check_commands, did in Hcmd.
      cbn [command_answers snd] in Hcmd.
      unfold verdict, refusal_steps. conn_simpl.
      rewrite Hcmd. unfold feed_next.
      destruct (authorized (command_answers e 1%nat)); [| discriminate].
      intros _. split.
      * eexists. rewrite app_nil_r. reflexivity.
      * right. split; [reflexivity |]. split; [reflexivity |].
        exists mpd_host. split; assumption.
Qed.

Lemma Connect_connects_only_when_allowed_witness :
  let options := {| options_host := None; options_port := 0 |} in
  let e := env_of (Some "hunter2@example.org") None (fun _ => None)
                  (fun _ => kAccepted)
                  (fun _ => {| authorized := true; missing := [] |})
                  (fun _ => "") in
  fst (Connect (fun _ => 0) options 0 e) = Connected /\
  exists before,
    steps (snd (Connect (fun _ => 0) options 0 e))
    = before ++ [CheckCommands kRequiredCommands].
Proof.
  intros options e.
  assert (Hfst : fst (Connect (fun _ => 0) options 0 e) = Connected)
    by reflexivity.
  split; [exact Hfst |].
  exact (proj1 (Connect_connects_only_when_allowed
                  (fun _ => 0) options 0 e Hfst)).
Defined.

(** A password in the host string is applied once, right after dialing,
    and the required commands are checked once; whether the connection is
    handed out depends on that check alone, not on what the server said to
    the password, and the user is never asked for another one. *)
Theorem Connect_supplied_password_never_prompts
        (atoi : string -> Z) (options : Endpoint) (fuel : nat) (e : Env)
        (h pw : string) :
  MPDHost.make (mpd_host_raw options e)
  = Some {| MPDHost.host := h; MPDHost.password := Some pw |} ->
  let addr := {| host := h; port := mpd_port atoi options e |} in
  dialer e addr = None ->
  fst (Connect atoi options fuel e) = verdict (command_answers e 0%nat) /\
  steps (snd (Connect atoi options fuel e))
  = steps e ++ [Dial addr; ApplyPassword pw; CheckCommands kRequiredCommands]
      ++ refusal_steps (command_answers e 0%nat).
Proof.
  intros Hmake addr Hdial.
  exact (Connect_with_password atoi options fuel e _ Hmake pw eq_refl Hdial).
Qed.

Lemma Connect_supplied_password_never_prompts_witness :
  let options := {| options_host := Some "wrong@example.org";
                    options_port := 6601 |} in
  let e := env_of None None (fun _ => None) (fun _ => kRejected)
                  (fun _ => {| authorized := false;
                               missing := ["add"; "idle"] |})
                  (fun _ => "") in
  let addr := {| host := "example.org"; port := 6601 |} in
  MPDHost.make (mpd_host_raw options e)
  = Some {| MPDHost.host := "example.org";
            MPDHost.password := Some "wrong" |} /\
  dialer e addr = None /\
  fst (Connect (fun _ => 0) options 5 e) = Died StillNotAllowed /\
  steps (snd (Connect (fun _ => 0) options 5 e))
  = [Dial addr; ApplyPassword "wrong"; CheckCommands kRequiredCommands;
     MissingCommandsHeader; MissingCommand "add"; MissingCommand "idle"].
Proof.
  intros options e addr.
  refine (conj eq_refl (conj eq_refl _)).
  exact (Connect_supplied_password_never_prompts
           (fun _ => 0) options 5 e "example.org" "wrong" eq_refl eq_refl).
Defined.

(** Without a password in the host string: when the server allows the
    required commands at once, [Connect] applies no password and asks for
    none; when it refuses, [Connect] prompts until a password is accepted
    and checks the commands a second time, which decides; and while every
    password is rejected it goes on prompting. *)
Theorem Connect_without_password
        (atoi : string -> Z) (options : Endpoint) (fuel : nat) (e : Env)
        (h : string) :
  MPDHost.make (mpd_host_raw options e)
  = Some {| MPDHost.host := h; MPDHost.password := None |} ->
  let addr := {| host := h; port := mpd_port atoi options e |} in
  dialer e addr = None ->
  (authorized (command_answers e 0%nat) = true ->
   fst (Connect atoi options fuel e) = Connected /\
   steps (snd (Connect atoi options fuel e))
   = steps e ++ [Dial addr; CheckCommands kRequiredCommands]) /\
  (authorized (command_answers e 0%nat) = false ->
   forall n, accepted_at n e -> (n < fuel)%nat ->
   fst (Connect atoi options fuel e) = verdict (command_answers e 1%nat) /\
   steps (snd (Connect atoi options fuel e))
   = steps e ++ [Dial addr; CheckCommands kRequiredCommands]
       ++ rejected_steps (typed e) n
       ++ [Getpass; ApplyPassword (typed e n);
           CheckCommands kRequiredCommands]
       ++ refusal_steps (command_answers e 1%nat)) /\
  (authorized (command_answers e 0%nat) = false ->
   (forall k, (k < fuel)%nat -> password_answers e k = kRejected) ->
   fst (Connect atoi options fuel e) = Prompting).
Proof.
  intros Hmake addr Hdial. split; [| split].
  - intros Hauth.
    exact (Connect_allowed_at_once atoi options fuel e _ Hmake eq_refl
                                   Hdial Hauth).
  - intros Hauth n Hacc Hfuel.
    rewrite (Connect_prompting atoi options fuel e _ Hmake eq_refl Hdial
                               Hauth).
    match goal with
    | |- context [PromptPassword fuel ?e1] =>
        destruct (PromptPassword_accepts n fuel e1 Hacc Hfuel)
          as [e' [Hrun [Hsteps [Hcmd _]]]]
    end.
    rewrite Hrun. unfold check_commands, did in Hsteps, Hcmd.
    cbn [steps command_answers typed snd MPDHost.host] in Hsteps, Hcmd.
    conn_simpl. rewrite Hcmd, Hsteps. unfold feed_next.
    split; [reflexivity |]. cbn [MPDHost.host]. fold addr.
    rewrite <- !app_assoc. reflexivity.
  - intros Hauth Hrej.
    rewrite (Connect_prompting atoi options fuel e _ Hmake eq_refl Hdial
                               Hauth).
    rewrite PromptPassword_rejected_prefix; [reflexivity |].
    exact Hrej.
Qed.

Lemma Connect_without_password_witness :
  let options := {| options_host := None; options_port := 0 |} in
  let e := env_of None (Some "6601") (fun _ => None)
                  (script [kRejected] kAccepted)
                  (script [{| authorized := false; missing := ["idle"] |}]
                          {| authorized := true; missing := [] |})
                  (script ["guess"] "hunter2") in
  let atoi := fun _ : string => 6601 in
  let addr := {| host := "localhost"; port := 6601 |} in
  MPDHost.make (mpd_host_raw options e)
  = Some {| MPDHost.host := "localhost"; MPDHost.password := None |} /\
  dialer e addr = None /\
  authorized (command_answers e 0%nat) = false /\
  accepted_at 1 e /\ (1 < 3)%nat /\
  fst (Connect atoi options 3 e) = Connected /\
  steps (snd (Connect atoi options 3 e))
  = [Dial addr; CheckCommands kRequiredCommands;
     Getpass; ApplyPassword "guess"; IncorrectPassword;
     Getpass; ApplyPassword "hunter2"; CheckCommands kRequiredCommands].
Proof.
  intros options e atoi addr.
  assert (Hacc : accepted_at 1 e).
  { split; [| reflexivity]. intros k Hk.
    destruct k as [| k]; [reflexivity | lia]. }
  assert (Hfuel : (1 < 3)%nat) by lia.
  refine (conj eq_refl (conj eq_refl (conj eq_refl (conj Hacc
            (conj Hfuel _))))).
  exact (proj1 (proj2 (Connect_without_password atoi options 3 e "localhost"
                         eq_refl eq_refl))
               eq_refl 1%nat Hacc Hfuel).
Defined.

(** ** [IdleEventSet] as a set *)

Lemma land_single_bit (a k : Z) :
  0 <= k -> Z.land a (2 ^ k) = if Z.testbit a k then 2 ^ k else 0.
Proof.
  intros Hk. apply Z.bits_inj'. intros n Hn.
  rewrite Z.land_spec, Z.pow2_bits_eqb by exact Hk.
  destruct (Z.testbit a k) eqn:Hbit.
  - rewrite Z.pow2_bits_eqb by exact Hk.
    destruct (Z.eqb_spec k n) as [<- | Hne].
    + rewrite Hbit. reflexivity.
    + apply andb_false_r.
  - rewrite Z.bits_0.
    destruct (Z.eqb_spec k n) as [<- | Hne].
    + rewrite Hbit. reflexivity.
    + apply andb_false_r.
Qed.

Lemma Has_testbit (s : IdleEventSet.t) (k : Z) :
  0 <= k ->
  IdleEventSet.Has s (2 ^ k) = Z.testbit (IdleEventSet.events s) k.
Proof.
  intros Hk. unfold IdleEventSet.Has. rewrite land_single_bit by exact Hk.
  destruct (Z.testbit (IdleEventSet.events s) k); [| reflexivity].
  destruct (Z.eqb_spec (2 ^ k) 0) as [Hz | Hnz]; [| reflexivity].
  pose proof (Z.pow_pos_nonneg 2 k ltac:(lia) Hk). lia.
Qed.

Lemma fold_Add_testbit (l : list Z) (s : IdleEventSet.t) (k : Z) :
  Z.testbit (IdleEventSet.events (fold_left IdleEventSet.Add l s)) k
  = Z.testbit (IdleEventSet.events s) k
    || existsb (fun event => Z.testbit event k) l.
Proof.
  revert s. induction l as [| event l IH]; intros s; cbn [fold_left existsb].
  - rewrite orb_false_r. reflexivity.
  - rewrite IH. cbn [IdleEventSet.Add IdleEventSet.events].
    rewrite Z.lor_spec, orb_assoc. reflexivity.
Qed.

(** For the events of [enum mpd_idle], one bit each, the set built from a
    list of events has an event exactly when the list names it. *)
Theorem IdleEventSet_Has_make (l : list Z) (event : Z) :
  Forall single_bit l -> single_bit event ->
  IdleEventSet.Has (IdleEventSet.make l) event = true <-> In event l.
Proof.
  intros Hl [k [Hk ->]]. rewrite (Has_testbit _ k Hk).
  unfold IdleEventSet.make. rewrite fold_Add_testbit.
  cbn [IdleEventSet.empty IdleEventSet.events]. rewrite Z.bits_0.
  cbn [orb]. rewrite existsb_exists. split.
  - intros [x [Hin Hbit]]. rewrite Forall_forall in Hl.
    destruct (Hl x Hin) as [j [Hj ->]].
    rewrite Z.pow2_bits_eqb in Hbit by exact Hj.
    apply Z.eqb_eq in Hbit. subst j. exact Hin.
  - intros Hin. exists (2 ^ k). split; [exact Hin |].
    rewrite Z.pow2_bits_eqb by exact Hk. apply Z.eqb_refl.
Qed.

Lemma IdleEventSet_Has_make_witness :
  let l := [MPD_IDLE_DATABASE; MPD_IDLE_QUEUE; MPD_IDLE_PLAYER] in
  Forall single_bit l /\
  single_bit MPD_IDLE_QUEUE /\ single_bit MPD_IDLE_STORED_PLAYLIST /\
  IdleEventSet.Has idle_set MPD_IDLE_QUEUE = true /\
  IdleEventSet.Has idle_set MPD_IDLE_STORED_PLAYLIST <> true.
Proof.
  intros l.
  assert (Hdb : single_bit MPD_IDLE_DATABASE)
    by (exists 0; split; [lia | reflexivity]).
  assert (Hsp : single_bit MPD_IDLE_STORED_PLAYLIST)
    by (exists 1; split; [lia | reflexivity]).
  assert (Hq : single_bit MPD_IDLE_QUEUE)
    by (exists 2; split; [lia | reflexivity]).
  assert (Hp : single_bit MPD_IDLE_PLAYER)
    by (exists 3; split; [lia | reflexivity]).
  assert (Hl : Forall single_bit l) by (repeat constructor; assumption).
  refine (conj Hl (conj Hq (conj Hsp (conj _ _)))).
  - apply (proj2 (IdleEventSet_Has_make l MPD_IDLE_QUEUE Hl Hq)).
    right. left. reflexivity.
  - intros Hhas.
    apply (proj1 (IdleEventSet_Has_make l MPD_IDLE_STORED_PLAYLIST Hl Hsp))
      in Hhas.
    destruct Hhas as [Habs | [Habs | [Habs | []]]]; discriminate.
Defined.

(** ** Disciplines of whole runs *)

Section Discipline.

Context {C : Type} {ops : ShuffleChainOps C}.

Variables (options : Options) (allowed : Call -> Prop)
          (I : World C -> Prop) (S : Status -> Prop).

Hypothesis I_extend : forall cs w, I w -> I (extend cs w).
Hypothesis I_songs : forall c w, I w -> I (with_songs c w).
Hypothesis I_next_status : forall w, I w -> I (next_status w).
Hypothesis I_next_idle : forall w, I w -> I (next_idle w).
Hypothesis I_next_catalog : forall w, I w -> I (next_catalog w).
Hypothesis I_status : forall w, I w -> S (status_feed w 0%nat).

Hypothesis ok_status : allowed CallCurrentStatus.
Hypothesis ok_pick : allowed CallPick.
Hypothesis ok_add : forall uri, allowed (CallAdd uri).
Hypothesis ok_play : forall position, allowed (CallPlayAt position).
Hypothesis ok_idle : forall set, allowed (CallIdle set).
Hypothesis ok_print : forall msg, allowed (CallPrint msg).
Hypothesis ok_pause :
  forall status, S status -> Single status = true -> allowed CallPause.
Hypothesis ok_sleep :
  suspend_timeout (tweak options) <> 0 ->
  allowed (CallSleep (suspend_timeout (tweak options))).
Hypothesis ok_reload :
  file_in options = None -> allowed CallClear /\ allowed CallLoad.

Let anything {A : Type} : A -> Prop := fun _ => True.

Lemma disciplined_ret (A : Type) (Q : A -> Prop) (a : A) :
  Q a -> disciplined allowed I Q (ret a).
Proof.
  intros HQ w Hw. cbn. split; [exact Hw |]. split.
  - exists []. rewrite app_nil_r. split; [reflexivity | constructor].
  - intros a' Ha. injection Ha as <-. exact HQ.
Qed.

Lemma disciplined_bind (A B : Type) (Q : A -> Prop) (Q' : B -> Prop)
      (m : M A) (k : A -> M B) :
  disciplined allowed I Q m ->
  (forall a, Q a -> disciplined allowed I Q' (k a)) ->
  disciplined allowed I Q' (bind m k).
Proof.
  intros Hm Hk w Hw. destruct (Hm w Hw) as [HI [[d [Hd Hall]] HQ]].
  unfold bind. destruct (m w) as [[a | code | e |] w1];
    cbn [fst snd] in *.
  - destruct (Hk a (HQ a eq_refl) w1 HI) as [HI' [[d' [Hd' Hall']] HQ']].
    split; [exact HI' |]. split; [| exact HQ'].
    exists (d ++ d'). rewrite Hd', Hd, app_assoc. split; [reflexivity |].
    apply Forall_app. split; assumption.
  - split; [exact HI |]. split; [exists d; split; assumption |].
    intros b Hb. discriminate.
  - split; [exact HI |]. split; [exists d; split; assumption |].
    intros b Hb. discriminate.
  - split; [exact HI |]. split; [exists d; split; assumption |].
    intros b Hb. discriminate.
Qed.

Lemma disciplined_extend (A : Type) (Q : A -> Prop) (m : M A)
      (cs : list Call) (o : Outcome A) (f : World C -> World C) :
  (forall w, m w = (o, extend cs (f w))) ->
  (forall w, I w -> I (f w)) -> (forall w, trace (f w) = trace w) ->
  Forall allowed cs -> (forall a, o = Returned a -> Q a) ->
  disciplined allowed I Q m.
Proof.
  intros Hm Hf Htrace Hcs HQ w Hw. rewrite Hm. cbn [fst snd].
  split; [apply I_extend, Hf, Hw |]. split; [| exact HQ].
  exists cs. cbn [extend trace]. rewrite Htrace. split; [reflexivity |].
  exact Hcs.
Qed.

Lemma disciplined_emit (c : Call) :
  allowed c -> disciplined allowed I anything (emit c).
Proof.
  intros Hc. apply (disciplined_extend _ _ _ [c] (Returned tt) (fun w => w)).
  - reflexivity.
  - auto.
  - reflexivity.
  - repeat constructor. exact Hc.
  - intros; exact Logic.I.
Qed.

Lemma disciplined_exit (A : Type) (Q : A -> Prop) (code : Z) :
  disciplined allowed I Q (exit code).
Proof.
  intros w Hw. cbn. split; [exact Hw |]. split.
  - exists []. rewrite app_nil_r. split; [reflexivity | constructor].
  - intros a Ha. discriminate.
Qed.

Lemma disciplined_CurrentStatus : disciplined allowed I S CurrentStatus.
Proof.
  intros w Hw. cbn [CurrentStatus fst snd]. split.
  - apply I_extend, I_next_status, Hw.
  - split.
    + exists [CallCurrentStatus]. split; [reflexivity |].
      repeat constructor. exact ok_status.
    + intros a Ha. injection Ha as <-. apply I_status, Hw.
Qed.

Lemma disciplined_Idle (set : IdleEventSet.t) :
  disciplined allowed I anything (Idle set).
Proof.
  intros w Hw. cbn [Idle fst snd]. split.
  - apply I_extend, I_next_idle, Hw.
  - split; [| intros; exact Logic.I].
    exists [CallIdle set]. split; [reflexivity |].
    repeat constructor. apply ok_idle.
Qed.

Lemma disciplined_Pick : disciplined allowed I anything Pick.
Proof.
  intros w Hw. unfold Pick.
  destruct (chain_Pick (songs w)) as [[g c'] |]; cbn [fst snd].
  - split; [apply I_extend, I_songs, Hw |].
    split; [| intros; exact Logic.I].
    exists [CallPick]. split; [reflexivity |]. repeat constructor.
    exact ok_pick.
  - split; [apply I_extend, Hw |]. split; [| intros; discriminate].
    exists [CallPick]. split; [reflexivity |]. repeat constructor.
    exact ok_pick.
Qed.

Lemma disciplined_AddAll (uris : list string) :
  disciplined allowed I anything (AddAll uris).
Proof.
  apply (disciplined_extend _ _ _ (map CallAdd uris) (Returned tt)
                            (fun w => w)).
  - intros w. apply AddAll_run.
  - auto.
  - reflexivity.
  - apply Forall_forall. intros c Hin. apply in_map_iff in Hin.
    destruct Hin as [uri [<- _]]. apply ok_add.
  - intros; exact Logic.I.
Qed.

Lemma disciplined_enqueue_loop (fuel : nat) :
  forall needed, disciplined allowed I anything (enqueue_loop fuel needed).
Proof.
  induction fuel as [| fuel IH]; intros needed; cbn [enqueue_loop];
    destruct (needed >? 0).
  - intros w Hw. cbn. split; [exact Hw |]. split.
    + exists []. rewrite app_nil_r. split; [reflexivity | constructor].
    + intros a Ha. discriminate.
  - apply disciplined_ret. exact Logic.I.
  - apply (disciplined_bind _ _ anything); [apply disciplined_Pick |].
    intros picked _. cbv zeta.
    apply (disciplined_bind _ _ anything); [apply disciplined_AddAll |].
    intros _ _. apply IH.
  - apply disciplined_ret. exact Logic.I.
Qed.

Lemma disciplined_enqueue_phase (fuel : nat) (status : Status) :
  disciplined allowed I anything (enqueue_phase fuel status options).
Proof.
  unfold enqueue_phase. destruct (should_add status options).
  - destruct (negb (queue_buffer options =? 0)).
    + apply disciplined_enqueue_loop.
    + apply (disciplined_bind _ _ anything); [apply disciplined_Pick |].
      intros picked _. apply disciplined_AddAll.
  - apply disciplined_ret. exact Logic.I.
Qed.

Lemma disciplined_restart_phase (status : Status) :
  S status -> disciplined allowed I anything (restart_phase status options).
Proof.
  intros Hstatus. unfold restart_phase.
  destruct (should_add status options
            && (past_last status || queue_empty status)).
  - apply (disciplined_bind _ _ anything);
      [apply disciplined_emit, ok_play |].
    intros _ _. destruct (Single status) eqn:Hsingle.
    + apply disciplined_emit. apply (ok_pause status); assumption.
    + apply disciplined_ret. exact Logic.I.
  - apply disciplined_ret. exact Logic.I.
Qed.

Lemma disciplined_TryEnqueue (fuel : nat) :
  disciplined allowed I anything (TryEnqueue fuel options).
Proof.
  unfold TryEnqueue.
  apply (disciplined_bind _ _ S); [apply disciplined_CurrentStatus |].
  intros status Hstatus.
  apply (disciplined_bind _ _ anything);
    [apply disciplined_enqueue_phase |].
  intros _ _. apply disciplined_restart_phase. exact Hstatus.
Qed.

Lemma disciplined_TryFirst : disciplined allowed I anything TryFirst.
Proof.
  unfold TryFirst.
  apply (disciplined_bind _ _ S); [apply disciplined_CurrentStatus |].
  intros status _. destruct (IsPlaying status).
  - apply disciplined_ret. exact Logic.I.
  - apply (disciplined_bind _ _ anything); [apply disciplined_Pick |].
    intros picked _.
    apply (disciplined_bind _ _ anything); [apply disciplined_AddAll |].
    intros _ _. apply disciplined_emit, ok_play.
Qed.

Lemma disciplined_suspend_check (active : bool) :
  disciplined allowed I anything (suspend_check options active).
Proof.
  unfold suspend_check.
  destruct (suspend_timeout (tweak options) =? 0) eqn:Hz; cbn [negb].
  - apply disciplined_ret. exact Logic.I.
  - apply Z.eqb_neq in Hz.
    apply (disciplined_bind _ _ S); [apply disciplined_CurrentStatus |].
    intros status _. destruct (QueueLength status =? 0).
    + apply (disciplined_bind _ _ anything);
        [apply disciplined_emit, ok_sleep, Hz |].
      intros _ _.
      apply (disciplined_bind _ _ S); [apply disciplined_CurrentStatus |].
      intros status' _. apply disciplined_ret. exact Logic.I.
    + apply disciplined_ret. exact Logic.I.
Qed.

Lemma disciplined_reload (reloader : Loader) (active : bool) :
  file_in options = None ->
  disciplined allowed I anything
    (Clear ;; Load reloader ;; PrintChainLength ;; ret active).
Proof.
  intros Hfile. pose proof (ok_reload Hfile) as [Hclear Hload].
  intros w Hw. rewrite reload_run.
  destruct (catalog_feed w 0%nat) as [groups |]; cbn [fst snd].
  - split; [apply I_extend, I_songs, I_next_catalog, Hw |].
    split; [| intros; exact Logic.I].
    eexists. split; [reflexivity |]. repeat constructor; auto.
  - split; [apply I_extend, I_songs, I_next_catalog, Hw |].
    split; [| intros; discriminate].
    eexists. split; [reflexivity |]. repeat constructor; auto.
Qed.

Lemma disciplined_Loop_iteration (fuel : nat) (active : bool) :
  disciplined allowed I anything (Loop_iteration options fuel active).
Proof.
  unfold Loop_iteration.
  apply (disciplined_bind _ _ anything); [apply disciplined_Idle |].
  intros events _.
  apply (disciplined_bind _ _ anything).
  - destruct (IdleEventSet.Has events MPD_IDLE_DATABASE
              && exit_on_db_update (tweak options)).
    + apply (disciplined_bind _ _ anything);
        [apply disciplined_emit, ok_print |].
      intros _ _. apply disciplined_exit.
    + apply disciplined_ret. exact Logic.I.
  - intros _ _. unfold Reloader.
    assert (Hcases : file_in options = None \/
                     exists file, file_in options = Some file)
      by (destruct (file_in options) as [file |];
          [right; exists file; reflexivity | left; reflexivity]).
    destruct Hcases as [Hfile | [file Hfile]]; rewrite Hfile;
      [rewrite andb_true_r | rewrite andb_false_r].
    2: {
      destruct (IdleEventSet.Has events MPD_IDLE_QUEUE
                || IdleEventSet.Has events MPD_IDLE_PLAYER).
      * apply (disciplined_bind _ _ anything);
          [apply disciplined_suspend_check |].
        intros active' _. destruct (negb active').
        -- apply disciplined_ret. exact Logic.I.
        -- apply (disciplined_bind _ _ anything);
             [apply disciplined_TryEnqueue |].
           intros _ _. apply disciplined_ret. exact Logic.I.
      * apply disciplined_ret. exact Logic.I. }
    destruct (IdleEventSet.Has events MPD_IDLE_DATABASE).
    + apply disciplined_reload. exact Hfile.
    + destruct (IdleEventSet.Has events MPD_IDLE_QUEUE
                || IdleEventSet.Has events MPD_IDLE_PLAYER).
      * apply (disciplined_bind _ _ anything);
          [apply disciplined_suspend_check |].
        intros active' _. destruct (negb active').
        -- apply disciplined_ret. exact Logic.I.
        -- apply (disciplined_bind _ _ anything);
             [apply disciplined_TryEnqueue |].
           intros _ _. apply disciplined_ret. exact Logic.I.
      * apply disciplined_ret. exact Logic.I.
Qed.

Lemma disciplined_Loop_while (test_d : TestDelegate) (fuel : nat)
      (rounds : nat) :
  forall i active,
    disciplined allowed I anything
      (Loop_while rounds options test_d fuel i active).
Proof.
  induction rounds as [| rounds IH]; intros i active; cbn [Loop_while];
    destruct (keep_going test_d i).
  - intros w Hw. cbn. split; [exact Hw |]. split.
    + exists []. rewrite app_nil_r. split; [reflexivity | constructor].
    + intros a Ha. discriminate.
  - apply disciplined_ret. exact Logic.I.
  - apply (disciplined_bind _ _ anything);
      [apply disciplined_Loop_iteration |].
    intros active' _. apply IH.
  - apply disciplined_ret. exact Logic.I.
Qed.

Lemma disciplined_Loop (test_d : TestDelegate) (fuel rounds : nat) :
  disciplined allowed I anything (Loop options test_d fuel rounds).
Proof.
  unfold Loop. apply (disciplined_bind _ _ anything).
  - destruct (play_on_startup (tweak options)).
    + apply (disciplined_bind _ _ anything); [apply disciplined_TryFirst |].
      intros _ _. apply disciplined_TryEnqueue.
    + apply disciplined_ret. exact Logic.I.
  - intros _ _. apply disciplined_Loop_while.
Qed.

End Discipline.

(** ** What a run never does *)

Section MaintainerRuns.

Context {C : Type} {ops : ShuffleChainOps C}.

(** With a [suspend_timeout] of zero the loop never sleeps, from the
    startup to the last iteration followed. *)
Theorem Loop_never_sleeps_without_timeout
        (options : Options) (test_d : TestDelegate) (fuel rounds : nat)
        (w : World C) :
  suspend_timeout (tweak options) = 0 ->
  exists delta,
    trace (snd (Loop options test_d fuel rounds w)) = trace w ++ delta /\
    forall duration, ~ In (CallSleep duration) delta.
Proof.
  intros Hzero.
  assert (Hrun : disciplined
                   (fun c => forall duration, c <> CallSleep duration)
                   (fun _ : World C => True) (fun _ : unit => True)
                   (Loop options test_d fuel rounds)).
  { apply (disciplined_Loop options _ _ (fun _ => True));
      try (intros; exact Logic.I); try (intros; discriminate).
    - intros Hnz. contradiction.
    - intros _. split; intros; discriminate. }
  destruct (Hrun w Logic.I) as [_ [[delta [Htrace Hall]] _]].
  exists delta. split; [exact Htrace |]. intros duration Hin.
  rewrite Forall_forall in Hall. exact (Hall _ Hin duration eq_refl).
Qed.

(** As long as no status reports single mode the loop never pauses the
    player. *)
Theorem Loop_pauses_only_in_single_mode
        (options : Options) (test_d : TestDelegate) (fuel rounds : nat)
        (w : World C) :
  (forall n, Single (status_feed w n) = false) ->
  exists delta,
    trace (snd (Loop options test_d fuel rounds w)) = trace w ++ delta /\
    ~ In CallPause delta.
Proof.
  intros Hsingle.
  assert (Hrun : disciplined
                   (fun c => c <> CallPause)
                   (fun w : World C =>
                      forall n, Single (status_feed w n) = false)
                   (fun _ : unit => True)
                   (Loop options test_d fuel rounds)).
  { apply (disciplined_Loop options _ _
                            (fun status => Single status = false));
      try (intros; discriminate).
    - intros cs w0 H0 n. apply H0.
    - intros c w0 H0 n. apply H0.
    - intros w0 H0 n. apply (H0 (S n)).
    - intros w0 H0 n. apply H0.
    - intros w0 H0 n. apply H0.
    - intros w0 H0. apply H0.
    - intros status Hoff Hon. congruence.
    - intros _. split; discriminate. }
  destruct (Hrun w Hsingle) as [_ [[delta [Htrace Hall]] _]].
  exists delta. split; [exact Htrace |]. intros Hin.
  rewrite Forall_forall in Hall. exact (Hall _ Hin eq_refl).
Qed.

End MaintainerRuns.

Lemma Loop_never_sleeps_without_timeout_witness :
  let options := options_with 1 starting_tweak None in
  let w : World TurnChain.t :=
    world_of (fun _ => stopped 0 false)
             (script [IdleEventSet.make [MPD_IDLE_PLAYER]] IdleEventSet.empty)
             one_song in
  suspend_timeout (tweak options) = 0 /\
  exists delta,
    trace (snd (Loop options forever 3 2 w)) = trace w ++ delta /\
    forall duration, ~ In (CallSleep duration) delta.
Proof.
  intros options w. split; [reflexivity |].
  exact (Loop_never_sleeps_without_timeout options forever 3 2 w eq_refl).
Defined.

Lemma Loop_pauses_only_in_single_mode_witness :
  let options := options_with 1 starting_tweak None in
  let w : World TurnChain.t :=
    world_of (fun _ => stopped 0 false)
             (script [IdleEventSet.make [MPD_IDLE_PLAYER]] IdleEventSet.empty)
             one_song in
  (forall n, Single (status_feed w n) = false) /\
  exists delta,
    trace (snd (Loop options forever 3 2 w)) = trace w ++ delta /\
    ~ In CallPause delta.
Proof.
  intros options w.
  assert (Hsingle : forall n, Single (status_feed w n) = false)
    by (intros n; reflexivity).
  split; [exact Hsingle |].
  exact (Loop_pauses_only_in_single_mode options forever 3 2 w Hsingle).
Defined.

(** ** How a run ends *)

Section Outcomes.

Context {C : Type} {ops : ShuffleChainOps C}.

Lemma never_exits_ret (A : Type) (a : A) : never_exits (C := C) (ret a).
Proof. intros w code. discriminate. Qed.

Lemma never_exits_bind (A B : Type) (m : M A) (k : A -> M B) :
  never_exits (C := C) m -> (forall a, never_exits (k a)) ->
  never_exits (bind m k).
Proof.
  intros Hm Hk w code. unfold bind. specialize (Hm w).
  destruct (m w) as [[a | c | e |] w1]; cbn [fst] in *.
  - apply Hk.
  - destruct (Hm c eq_refl).
  - discriminate.
  - discriminate.
Qed.

Lemma never_exits_emit (c : Call) : never_exits (C := C) (emit c).
Proof. intros w code. discriminate. Qed.

Lemma never_exits_CurrentStatus : never_exits (C := C) CurrentStatus.
Proof. intros w code. discriminate. Qed.

Lemma never_exits_Pick : never_exits Pick.
Proof.
  intros w code. unfold Pick.
  destruct (chain_Pick (songs w)) as [[g c'] |]; discriminate.
Qed.

Lemma never_exits_AddAll (uris : list string) :
  never_exits (C := C) (AddAll uris).
Proof. intros w code. rewrite AddAll_run. discriminate. Qed.

Lemma never_exits_enqueue_loop (fuel : nat) :
  forall needed, never_exits (enqueue_loop fuel needed).
Proof.
  induction fuel as [| fuel IH]; intros needed; cbn [enqueue_loop];
    destruct (needed >? 0).
  - intros w code. discriminate.
  - apply never_exits_ret.
  - apply never_exits_bind; [apply never_exits_Pick |]. intros picked.
    cbv zeta. apply never_exits_bind; [apply never_exits_AddAll |].
    intros _. apply IH.
  - apply never_exits_ret.
Qed.

Lemma never_exits_TryEnqueue (fuel : nat) (options : Options) :
  never_exits (TryEnqueue fuel options).
Proof.
  unfold TryEnqueue.
  apply never_exits_bind; [apply never_exits_CurrentStatus |].
  intros status. apply never_exits_bind.
  - unfold enqueue_phase. destruct (should_add status options).
    + destruct (negb (queue_buffer options =? 0)).
      * apply never_exits_enqueue_loop.
      * apply never_exits_bind; [apply never_exits_Pick |].
        intros picked. apply never_exits_AddAll.
    + apply never_exits_ret.
  - intros _. unfold restart_phase.
    destruct (should_add status options
              && (past_last status || queue_empty status)).
    + apply never_exits_bind; [apply never_exits_emit |].
      intros _. destruct (Single status).
      * apply never_exits_emit.
      * apply never_exits_ret.
    + apply never_exits_ret.
Qed.

Lemma never_exits_TryFirst : never_exits TryFirst.
Proof.
  unfold TryFirst.
  apply never_exits_bind; [apply never_exits_CurrentStatus |].
  intros status. destruct (IsPlaying status).
  - apply never_exits_ret.
  - apply never_exits_bind; [apply never_exits_Pick |]. intros picked.
    apply never_exits_bind; [apply never_exits_AddAll |].
    intros _. apply never_exits_emit.
Qed.

Lemma never_exits_suspend_check (options : Options) (active : bool) :
  never_exits (C := C) (suspend_check options active).
Proof.
  unfold suspend_check.
  destruct (negb (suspend_timeout (tweak options) =? 0)).
  - apply never_exits_bind; [apply never_exits_CurrentStatus |].
    intros status. destruct (QueueLength status =? 0).
    + apply never_exits_bind; [apply never_exits_emit |]. intros _.
      apply never_exits_bind; [apply never_exits_CurrentStatus |].
      intros status'. apply never_exits_ret.
    + apply never_exits_ret.
  - apply never_exits_ret.
Qed.

Lemma never_exits_reload (reloader : Loader) (active : bool) :
  never_exits (Clear ;; Load reloader ;; PrintChainLength ;; ret active).
Proof.
  intros w code. rewrite reload_run.
  destruct (catalog_feed w 0%nat); discriminate.
Qed.

Lemma exits_as_never (E : Z -> World C -> Prop) (A : Type) (m : M A) :
  never_exits m -> exits_as E m.
Proof. intros Hm w code Hexit. destruct (Hm w code Hexit). Qed.

Lemma exits_as_bind (E : Z -> World C -> Prop) (A B : Type)
      (m : M A) (k : A -> M B) :
  exits_as E m -> (forall a, exits_as E (k a)) -> exits_as E (bind m k).
Proof.
  intros Hm Hk w code. unfold bind. specialize (Hm w).
  destruct (m w) as [[a | c | e |] w1]; cbn [fst snd] in *.
  - apply Hk.
  - intros Heq. injection Heq as <-. exact (Hm c eq_refl).
  - discriminate.
  - discriminate.
Qed.

Lemma exits_as_Loop_iteration (options : Options) (fuel : nat)
      (active : bool) :
  exits_as (database_exit options) (Loop_iteration options fuel active).
Proof.
  intros w code.
  destruct (IdleEventSet.Has (idle_feed w 0%nat) MPD_IDLE_DATABASE
            && exit_on_db_update (tweak options)) eqn:Hexit.
  - apply andb_prop in Hexit as [Hdb Hon].
    rewrite (Loop_iteration_exit options fuel active w Hdb Hon).
    cbn [fst snd]. intros Heq. injection Heq as <-.
    split; [reflexivity |]. split; [exact Hon |].
    exists (trace w). reflexivity.
  - intros Habs. exfalso. revert Habs. unfold Loop_iteration.
    rewrite Idle_bind, Hexit.
    apply never_exits_bind; [apply never_exits_ret |]. intros _.
    destruct (IdleEventSet.Has (idle_feed w 0%nat) MPD_IDLE_DATABASE
              && match file_in options with
                 | None => true
                 | Some _ => false
                 end).
    + destruct (Reloader options) as [reloader |].
      * apply never_exits_reload.
      * apply never_exits_ret.
    + destruct (IdleEventSet.Has (idle_feed w 0%nat) MPD_IDLE_QUEUE
                || IdleEventSet.Has (idle_feed w 0%nat) MPD_IDLE_PLAYER).
      * apply never_exits_bind; [apply never_exits_suspend_check |].
        intros active'. destruct (negb active').
        -- apply never_exits_ret.
        -- apply never_exits_bind; [apply never_exits_TryEnqueue |].
           intros _. apply never_exits_ret.
      * apply never_exits_ret.
Qed.

Lemma exits_as_Loop_while (options : Options) (test_d : TestDelegate)
      (fuel rounds : nat) :
  forall i active,
    exits_as (database_exit options)
             (Loop_while rounds options test_d fuel i active).
Proof.
  induction rounds as [| rounds IH]; intros i active; cbn [Loop_while];
    destruct (keep_going test_d i).
  - intros w code. discriminate.
  - apply exits_as_never, never_exits_ret.
  - apply exits_as_bind; [apply exits_as_Loop_iteration |].
    intros active'. apply IH.
  - apply exits_as_never, never_exits_ret.
Qed.

(** [Loop] ends the process in one way only: with status 0, when it is
    configured to exit on a database update, and the last things it did
    were an [Idle] and the farewell line. *)
Theorem Loop_exits_only_on_database_update
        (options : Options) (test_d : TestDelegate) (fuel rounds : nat)
        (w : World C) (code : Z) :
  fst (Loop options test_d fuel rounds w) = Exited code ->
  code = 0 /\
  exit_on_db_update (tweak options) = true /\
  exists before,
    trace (snd (Loop options test_d fuel rounds w))
    = before ++ [CallIdle idle_set; CallPrint DatabaseUpdatedExiting].
Proof.
  revert w code. change (exits_as (database_exit options)
                                  (Loop options test_d fuel rounds)).
  unfold Loop. apply exits_as_bind.
  - apply exits_as_never. destruct (play_on_startup (tweak options)).
    + apply never_exits_bind; [apply never_exits_TryFirst |].
      intros _. apply never_exits_TryEnqueue.
    + apply never_exits_ret.
  - intros _. apply exits_as_Loop_while.
Qed.

Lemma never_returns_bind (A B : Type) (m : M A) (k : A -> M B) :
  (forall a, never_returns (C := C) (k a)) -> never_returns (bind m k).
Proof.
  intros Hk w b. unfold bind.
  destruct (m w) as [[a | c | e |] w1]; cbn [fst]; try discriminate.
  apply Hk.
Qed.

Lemma never_returns_Loop_while (options : Options) (test_d : TestDelegate)
      (fuel rounds : nat) :
  until_f test_d = None ->
  forall i active,
    never_returns (Loop_while rounds options test_d fuel i active).
Proof.
  intros Hnone. induction rounds as [| rounds IH]; intros i active;
    cbn [Loop_while]; unfold keep_going; rewrite Hnone.
  - intros w a. discriminate.
  - apply never_returns_bind. intros active'. apply IH.
Qed.

(** Without a test delegate, as in production, [Loop] never returns to its
    caller: however many iterations are followed, the run has ended the
    process, has failed, or is still going on. *)
Theorem Loop_production_never_returns
        (options : Options) (test_d : TestDelegate) (fuel rounds : nat)
        (w : World C) :
  until_f test_d = None ->
  fst (Loop options test_d fuel rounds w) <> Returned tt.
Proof.
  intros Hnone. unfold Loop. apply never_returns_bind. intros _.
  apply never_returns_Loop_while. exact Hnone.
Qed.

Lemma iter_next_idle_extend (cs : list Call) (n : nat) (w : World C) :
  Nat.iter n next_idle (extend cs w) = extend cs (Nat.iter n next_idle w).
Proof.
  induction n as [| n IH]; [reflexivity |].
  rewrite !Nat.iter_succ, IH. reflexivity.
Qed.

Lemma Loop_while_nothing_to_do (options : Options) (test_d : TestDelegate)
      (fuel rounds : nat) :
  forall i active (w : World C),
    (forall n, nothing_to_do (idle_feed w n)) ->
    exists n,
      (n <= rounds)%nat /\
      (forall k, (k < n)%nat -> keep_going test_d (i + k) = true) /\
      (keep_going test_d (i + n) = false \/ n = rounds) /\
      Loop_while rounds options test_d fuel i active w
      = (if keep_going test_d (i + n) then OutOfFuel else Returned tt,
         extend (repeat (CallIdle idle_set) n)
                (Nat.iter n next_idle w)).
Proof.
  induction rounds as [| rounds IH]; intros i active w Hquiet;
    cbn [Loop_while]; destruct (keep_going test_d i) eqn:Hgo.
  - exists 0%nat. rewrite Nat.add_0_r, Hgo. cbn [repeat Nat.iter nat_rect].
    rewrite extend_nil. split; [lia |]. split; [intros k Hk; lia |].
    split; [right; reflexivity | reflexivity].
  - exists 0%nat. rewrite Nat.add_0_r, Hgo. cbn [repeat Nat.iter nat_rect].
    rewrite extend_nil. split; [lia |]. split; [intros k Hk; lia |].
    split; [left; reflexivity | reflexivity].
  - destruct (Hquiet 0%nat) as [Hdb [Hq Hp]].
    unfold bind.
    rewrite (Loop_iteration_other options fuel active w)
      by (cbv zeta; rewrite ?Hdb, ?Hq, ?Hp; reflexivity).
    destruct (IH (S i) active
                 (extend [CallIdle idle_set] (next_idle w))
                 (fun n => Hquiet (S n)))
      as [n [Hn [Hbefore [Hlast Hrun]]]].
    exists (S n). replace (i + S n)%nat with (S i + n)%nat by lia.
    split; [lia |]. split.
    + intros k Hk. destruct k as [| k].
      * rewrite Nat.add_0_r. exact Hgo.
      * replace (i + S k)%nat with (S i + k)%nat by lia.
        apply Hbefore. lia.
    + split.
      * destruct Hlast as [Hstop | Hall]; [left; exact Hstop | right; lia].
      * rewrite Hrun. f_equal.
        rewrite iter_next_idle_extend, extend_extend, Nat.iter_succ_r.
        reflexivity.
  - exists 0%nat. rewrite Nat.add_0_r, Hgo. cbn [repeat Nat.iter nat_rect].
    rewrite extend_nil. split; [lia |]. split; [intros k Hk; lia |].
    split; [left; reflexivity | reflexivity].
Qed.

(** Events that are none of [DatabaseChanged], [QueueChanged] and
    [PlayerStateChanged] make no difference: a loop that is not asked to
    play on startup and only ever hears of such events does nothing but
    [Idle], exactly once in each iteration it makes.  The iterations are
    [n]: the test of line 170 held before each of them, and either it
    fails at the [n]-th evaluation, where the loop returns, or all the
    [rounds] followed were made and the loop goes on; without a test
    delegate [n] is [rounds].  The run leaves the world as [n] calls of
    [Idle] leave it: the [n] first event sets consumed, no status read, the
    pool untouched. *)
Theorem Loop_ignores_other_events
        (options : Options) (test_d : TestDelegate) (fuel rounds : nat)
        (w : World C) :
  play_on_startup (tweak options) = false ->
  (forall n, nothing_to_do (idle_feed w n)) ->
  exists n,
    (n <= rounds)%nat /\
    (forall k, (k < n)%nat -> keep_going test_d k = true) /\
    (keep_going test_d n = false \/ n = rounds) /\
    (until_f test_d = None -> n = rounds) /\
    Loop options test_d fuel rounds w
    = (if keep_going test_d n then OutOfFuel else Returned tt,
       extend (repeat (CallIdle idle_set) n) (Nat.iter n next_idle w)) /\
    trace (snd (Loop options test_d fuel rounds w))
    = trace w ++ repeat (CallIdle idle_set) n /\
    songs (snd (Loop options test_d fuel rounds w)) = songs w /\
    status_feed (snd (Loop options test_d fuel rounds w)) = status_feed w.
Proof.
  intros Hstart Hquiet.
  assert (Hiter : forall n (w0 : World C),
             trace (Nat.iter n next_idle w0) = trace w0 /\
             songs (Nat.iter n next_idle w0) = songs w0 /\
             status_feed (Nat.iter n next_idle w0) = status_feed w0).
  { induction n as [| n IHn]; intros w0; [repeat split |].
    cbn [Nat.iter nat_rect]. apply (IHn w0). }
  destruct (Loop_while_nothing_to_do options test_d fuel rounds 0%nat true w
                                     Hquiet)
    as [n [Hn [Hbefore [Hlast Hrun]]]].
  cbn [Nat.add] in Hbefore, Hlast, Hrun.
  assert (HLoop : Loop options test_d fuel rounds w
                  = Loop_while rounds options test_d fuel 0%nat true w).
  { unfold Loop. rewrite Hstart. reflexivity. }
  rewrite HLoop, Hrun. cbn [snd].
  destruct (Hiter n w) as [Htrace [Hsongs Hstatus]].
  exists n. split; [exact Hn |]. split; [exact Hbefore |].
  split; [exact Hlast |]. split.
  - intros Hnone. destruct Hlast as [Hstop | Hall]; [| exact Hall].
    unfold keep_going in Hstop. rewrite Hnone in Hstop. discriminate.
  - split; [reflexivity |]. split.
    + cbn [trace extend]. rewrite Htrace. reflexivity.
    + split; [exact Hsongs | exact Hstatus].
Qed.

(** ** What [TryEnqueue] leaves alone *)

Lemma bind_ret_snd (m : M unit) (w : World C) :
  snd ((m ;; ret tt) w) = snd (m w).
Proof.
  unfold bind. destruct (m w) as [[a | c | e |] w1]; reflexivity.
Qed.

(** With a current song and at least [queue_buffer] songs after it,
    [TryEnqueue] reads the status and does nothing else: nothing is
    picked, nothing is queued, playback is not touched. *)
Theorem TryEnqueue_leaves_full_buffer_alone
        (fuel : nat) (options : Options) (w : World C) (pos : Z) :
  status_ok (status_feed w 0%nat) ->
  SongPosition (status_feed w 0%nat) = Some pos ->
  queue_buffer options <= remaining (status_feed w 0%nat) ->
  TryEnqueue fuel options w
  = (Returned tt, extend [CallCurrentStatus] (next_status w)).
Proof.
  intros Hok Hpos Hfull.
  assert (Hadd : should_add (status_feed w 0%nat) options = false).
  { unfold should_add, past_last, queue_empty.
    rewrite (queue_songs_remaining_eq _ Hok), Hpos.
    replace (remaining (status_feed w 0%nat) <? queue_buffer options)
      with false by (symmetry; apply Z.ltb_ge; exact Hfull).
    destruct Hok as [_ Hin]. specialize (Hin pos Hpos).
    replace (QueueLength (status_feed w 0%nat) =? 0) with false
      by (symmetry; apply Z.eqb_neq; lia).
    reflexivity. }
  unfold TryEnqueue. rewrite CurrentStatus_bind.
  unfold enqueue_phase, restart_phase. rewrite Hadd. reflexivity.
Qed.

(** With a current song in a queue that is not empty, [TryEnqueue] never
    touches playback: after reading the status it only picks and appends,
    with no [PlayAt] and no [Pause]. *)
Theorem TryEnqueue_only_appends_behind_current_song
        (fuel : nat) (options : Options) (w : World C) (pos : Z) :
  SongPosition (status_feed w 0%nat) = Some pos ->
  QueueLength (status_feed w 0%nat) <> 0 ->
  exists delta,
    trace (snd (TryEnqueue fuel options w))
    = trace w ++ CallCurrentStatus :: delta /\
    Forall pick_or_add delta.
Proof.
  intros Hpos Hlen. unfold TryEnqueue. rewrite CurrentStatus_bind.
  assert (Hrestart : restart_phase (C := C) (status_feed w 0%nat) options
                     = ret tt).
  { unfold restart_phase, past_last, queue_empty. rewrite Hpos.
    replace (QueueLength (status_feed w 0%nat) =? 0) with false
      by (symmetry; apply Z.eqb_neq; exact Hlen).
    rewrite andb_false_r. reflexivity. }
  rewrite Hrestart, bind_ret_snd.
  destruct (disciplined_enqueue_phase
              options pick_or_add (fun _ : World C => True)
              (fun _ _ _ => Logic.I) (fun _ _ _ => Logic.I)
              (or_introl eq_refl)
              (fun uri => or_intror (ex_intro _ uri eq_refl))
              fuel (status_feed w 0%nat)
              (extend [CallCurrentStatus] (next_status w)) Logic.I)
    as [_ [[delta [Htrace Hall]] _]].
  exists delta. split; [| exact Hall].
  rewrite Htrace. cbn [trace extend next_status].
  rewrite <- app_assoc. reflexivity.
Qed.

End Outcomes.

(** ** A catalog read from a file, over a whole run *)

Section StaticCatalog.

Context {C : Type} {ops : ShuffleChainOps C} {laws : ShuffleChainLaws C}.

Lemma no_reload_TryFirst : no_reload TryFirst.
Proof.
  unfold TryFirst.
  apply no_reload_bind; [apply no_reload_CurrentStatus |].
  intros status. destruct (IsPlaying status).
  - apply no_reload_ret.
  - apply no_reload_bind; [apply no_reload_Pick |]. intros picked.
    apply no_reload_bind; [apply no_reload_AddAll |].
    intros _. apply no_reload_emit; discriminate.
Qed.

Lemma no_reload_Loop_while (options : Options) (test_d : TestDelegate)
      (fuel rounds : nat) (file : istream) :
  file_in options = Some file ->
  forall i active,
    no_reload (Loop_while rounds options test_d fuel i active).
Proof.
  intros Hfile. induction rounds as [| rounds IH]; intros i active;
    cbn [Loop_while]; destruct (keep_going test_d i).
  - intros w. apply pool_kept_refl.
  - apply no_reload_ret.
  - apply no_reload_bind.
    + apply (no_reload_static_file options fuel active file Hfile).
    + intros active'. apply IH.
  - apply no_reload_ret.
Qed.

(** With a file as the source of the catalog, a whole run of [Loop], the
    startup included, never calls [Clear] or [Load], and the chain counts
    as many groups and as many identifiers at the end as at the start. *)
Theorem Loop_static_file_keeps_pool
        (options : Options) (test_d : TestDelegate) (fuel rounds : nat)
        (file : istream) (w : World C) :
  file_in options = Some file ->
  exists delta,
    trace (snd (Loop options test_d fuel rounds w)) = trace w ++ delta /\
    ~ In CallClear delta /\ ~ In CallLoad delta /\
    chain_Len (songs (snd (Loop options test_d fuel rounds w)))
    = chain_Len (songs w) /\
    chain_LenURIs (songs (snd (Loop options test_d fuel rounds w)))
    = chain_LenURIs (songs w).
Proof.
  intros Hfile. revert w.
  change (no_reload (Loop options test_d fuel rounds)).
  unfold Loop. apply no_reload_bind.
  - destruct (play_on_startup (tweak options)).
    + apply no_reload_bind; [apply no_reload_TryFirst |].
      intros _. apply no_reload_TryEnqueue.
    + apply no_reload_ret.
  - intros _. apply (no_reload_Loop_while options test_d fuel rounds file Hfile).
Qed.

End StaticCatalog.

Lemma Loop_exits_only_on_database_update_witness :
  let options := options_with 2 exiting_tweak None in
  let w : World TurnChain.t :=
    world_of (fun _ => playing_at 0 3)
             (script [IdleEventSet.make [MPD_IDLE_PLAYER]]
                     (IdleEventSet.make [MPD_IDLE_DATABASE]))
             one_song in
  fst (Loop options forever 5 3 w) = Exited 0 /\
  exit_on_db_update (tweak options) = true /\
  exists before,
    trace (snd (Loop options forever 5 3 w))
    = before ++ [CallIdle idle_set; CallPrint DatabaseUpdatedExiting].
Proof.
  intros options w. split; [reflexivity |].
  exact (proj2 (Loop_exits_only_on_database_update
                  options forever 5 3 w 0 eq_refl)).
Defined.

Lemma Loop_production_never_returns_witness :
  let options := options_with 2 plain_tweak None in
  let w : World TurnChain.t :=
    world_of (fun _ => playing_at 0 3)
             (fun _ => IdleEventSet.make [MPD_IDLE_PLAYER]) one_song in
  until_f forever = None /\
  fst (Loop options forever 5 3 w) <> Returned tt.
Proof.
  intros options w. split; [reflexivity |].
  exact (Loop_production_never_returns options forever 5 3 w eq_refl).
Defined.

Lemma Loop_ignores_other_events_witness :
  let options := options_with 2 plain_tweak None in
  let twice := {| until_f := Some (fun i => (i <? 2)%nat) |} in
  let w : World TurnChain.t :=
    world_of (fun _ => stopped 0 false) quiet one_song in
  play_on_startup (tweak options) = false /\
  (forall n, nothing_to_do (idle_feed w n)) /\
  Loop options twice 5 3 w
  = (Returned tt,
     extend [CallIdle idle_set; CallIdle idle_set]
            (next_idle (next_idle w))).
Proof.
  intros options twice w.
  assert (Hquiet : forall n, nothing_to_do (idle_feed w n))
    by (intros n; repeat split).
  refine (conj eq_refl (conj Hquiet _)).
  destruct (Loop_ignores_other_events options twice 5 3 w eq_refl Hquiet)
    as [n [Hn [Hbefore [Hlast [_ [Hrun _]]]]]].
  destruct n as [| [| [| [| n]]]].
  - destruct Hlast as [Habs | Habs]; discriminate.
  - destruct Hlast as [Habs | Habs]; discriminate.
  - exact Hrun.
  - discriminate (Hbefore 2%nat (le_n 3)).
  - lia.
Defined.

Lemma TryEnqueue_leaves_full_buffer_alone_witness :
  let options := options_with 2 plain_tweak None in
  let w : World TurnChain.t :=
    world_of (fun _ => playing_at 0 3) quiet one_song in
  status_ok (status_feed w 0%nat) /\
  SongPosition (status_feed w 0%nat) = Some 0 /\
  queue_buffer options <= remaining (status_feed w 0%nat) /\
  TryEnqueue 1 options w
  = (Returned tt, extend [CallCurrentStatus] (next_status w)).
Proof.
  intros options w.
  assert (Hok : status_ok (status_feed w 0%nat)).
  { split; [vm_compute; split; discriminate |].
    intros pos Hpos. injection Hpos as <-. vm_compute.
    split; [discriminate | reflexivity]. }
  assert (Hfull : queue_buffer options <= remaining (status_feed w 0%nat))
    by (vm_compute; discriminate).
  refine (conj Hok (conj eq_refl (conj Hfull _))).
  exact (TryEnqueue_leaves_full_buffer_alone 1 options w 0 Hok eq_refl
                                             Hfull).
Defined.

Lemma TryEnqueue_only_appends_behind_current_song_witness :
  let options := options_with 2 plain_tweak None in
  let w : World TurnChain.t :=
    world_of (fun _ => playing_at 0 1) quiet one_song in
  SongPosition (status_feed w 0%nat) = Some 0 /\
  QueueLength (status_feed w 0%nat) <> 0 /\
  exists delta,
    trace (snd (TryEnqueue 3 options w))
    = trace w ++ CallCurrentStatus :: delta /\
    Forall pick_or_add delta.
Proof.
  intros options w.
  assert (Hlen : QueueLength (status_feed w 0%nat) <> 0) by discriminate.
  refine (conj eq_refl (conj Hlen _)).
  exact (TryEnqueue_only_appends_behind_current_song 3 options w 0 eq_refl
                                                     Hlen).
Defined.

Lemma Loop_static_file_keeps_pool_witness :
  let options :=
    options_with 1 starting_tweak (Some (FileStream "songs.txt")) in
  let w : World SpecChain.t :=
    world_of (fun _ => stopped 0 false)
             (fun _ => IdleEventSet.make [MPD_IDLE_DATABASE; MPD_IDLE_QUEUE])
             sample_chain in
  file_in options = Some (FileStream "songs.txt") /\
  exists delta,
    trace (snd (Loop options forever 3 2 w)) = trace w ++ delta /\
    ~ In CallClear delta /\ ~ In CallLoad delta /\
    chain_Len (songs (snd (Loop options forever 3 2 w)))
    = chain_Len (songs w) /\
    chain_LenURIs (songs (snd (Loop options forever 3 2 w)))
    = chain_LenURIs (songs w).
Proof.
  intros options w. split; [reflexivity |].
  exact (Loop_static_file_keeps_pool (laws := SpecChain_laws)
           options forever 3 2 (FileStream "songs.txt") w eq_refl).
Defined.
